(** * workers/whisper/transcribe.py: streaming transcription engine

    A shallow embedding of [transcribe.py]: the trigger pattern [ptn] and
    [get_cmd], the audio decode of the engine loop, [load_model],
    [save_transcripts] and [main] (setup, engine loop, session end).

    Conventions.
    - A Python [str] is a Rocq [string] whose characters are the code points
      below 256; [bytes] is a [list byte].
    - [datetime] values are integers counting microseconds (the resolution
      of [datetime] and [timedelta]).
    - [np.float32] values are [spec_float]s of the binary32 format
      (precision 24, maximal exponent 128).
    - The recogniser, the model loader and the microphone list are taken
      as variables; the clock readings and the queue contents found by each
      loop iteration are the inputs of a run. *)

From Stdlib Require Import ZArith List Strings.String Strings.Ascii Strings.Byte Bool Lia.
From Stdlib Require Import QArith SpecFloat.
Import ListNotations.

Local Open Scope string_scope.
Local Open Scope Z_scope.

(* ===================================================================== *)
(** ** Python [str] operations used by the program *)
(* ===================================================================== *)

Module Str.

Definition code (c : ascii) : N := N_of_ascii c.

(** [str.isspace] on one code point below 256: TAB..CR, FS..US, space,
    NEL and NBSP. *)
Definition isspace (c : ascii) : bool :=
  let n := code c in
  ((9 <=? n) && (n <=? 13) || (28 <=? n) && (n <=? 32)
   || (n =? 133) || (n =? 160))%N.

Fixpoint lstrip (s : string) : string :=
  match s with
  | "" => ""
  | String c s' => if isspace c then lstrip s' else s
  end.

Fixpoint rstrip (s : string) : string :=
  match s with
  | "" => ""
  | String c s' =>
      match rstrip s' with
      | "" => if isspace c then "" else String c ""
      | r => String c r
      end
  end.

(** [s.strip()] *)
Definition strip (s : string) : string := rstrip (lstrip s).

(** [str.lower] on one code point below 256: A..Z and the Latin-1
    capitals (all of 0xC0..0xDE but the multiplication sign). *)
Definition lower_char (c : ascii) : ascii :=
  let n := code c in
  if ((65 <=? n) && (n <=? 90)
      || (192 <=? n) && (n <=? 222) && negb (n =? 215))%N
  then ascii_of_N (n + 32) else c.

Fixpoint lower (s : string) : string :=
  match s with
  | "" => ""
  | String c s' => String (lower_char c) (lower s')
  end.

Definition mem (c : ascii) (cs : list ascii) : bool :=
  existsb (Ascii.eqb c) cs.

(** [re.sub("[...]", repl, s)] for a pattern that is one character set:
    every character of the set is replaced by [repl]. *)
Fixpoint sub_set (cs : list ascii) (repl : string) (s : string) : string :=
  match s with
  | "" => ""
  | String c s' =>
      if mem c cs then repl ++ sub_set cs repl s'
      else String c (sub_set cs repl s')
  end.

(** [sep.join(items)] *)
Fixpoint join (sep : string) (items : list string) : string :=
  match items with
  | [] => ""
  | [x] => x
  | x :: rest => x ++ sep ++ join sep rest
  end.

(** Iterating a [str] yields its characters as one-character strings. *)
Fixpoint iter (s : string) : list string :=
  match s with
  | "" => []
  | String c s' => String c "" :: iter s'
  end.

(** [sub in s] *)
Fixpoint contains (sub s : string) : bool :=
  prefix sub s ||
  match s with
  | "" => false
  | String _ s' => contains sub s'
  end.

Definition newline : string := String (ascii_of_N 10) "".

End Str.

(* ===================================================================== *)
(** ** Regular expressions: the fragment of [re] the program uses *)
(* ===================================================================== *)

Module Re.

(** One-character matchers. *)
Inductive cls :=
| Chr (c : ascii)              (* a literal character *)
| Dot                          (* [.]: any character except newline *)
| Set1 (cs : list ascii).      (* [[...]] *)

Inductive re :=
| Sym (c : cls)
| Opt (r : re)                 (* [r?], greedy *)
| LazyStar (c : cls)           (* [c*?], lazy *)
| Cat (r1 r2 : re)
| Alt (r1 r2 : re)             (* [r1|r2] *)
| Grp (i : nat) (r : re).      (* the i-th capturing group *)

Definition accepts (c : cls) (a : ascii) : bool :=
  match c with
  | Chr c' => Ascii.eqb a c'
  | Dot => negb (N_of_ascii a =? 10)%N
  | Set1 cs => Str.mem a cs
  end.

(** A way of matching a prefix of the subject: the text consumed, the
    groups captured and the rest of the subject. *)
Record way := Way { word : string; caps : list (nat * string); rest : string }.

(** All the ways [c*?] matches a prefix of [s], fewest repetitions
    first. *)
Fixpoint lazy_star (c : cls) (s : string) : list way :=
  Way "" [] s ::
  match s with
  | "" => []
  | String a s' =>
      if accepts c a
      then map (fun w => Way (String a (word w)) (caps w) (rest w))
               (lazy_star c s')
      else []
  end.

(** All the ways [r] matches a prefix of [s], in the order in which a
    backtracking matcher tries them. *)
Fixpoint ways (r : re) (s : string) : list way :=
  match r with
  | Sym c =>
      match s with
      | String a s' => if accepts c a then [Way (String a "") [] s'] else []
      | "" => []
      end
  | Opt r1 => ways r1 s ++ [Way "" [] s]
  | LazyStar c => lazy_star c s
  | Cat r1 r2 =>
      flat_map (fun w1 =>
        map (fun w2 => Way (word w1 ++ word w2) (caps w1 ++ caps w2) (rest w2))
            (ways r2 (rest w1)))
        (ways r1 s)
  | Alt r1 r2 => ways r1 s ++ ways r2 s
  | Grp i r1 =>
      map (fun w => Way (word w) ((i, word w) :: caps w) (rest w)) (ways r1 s)
  end.

(** A match object: where the match starts, the text matched, and the
    groups. *)
Record match_ := Match { start : nat; matched : string; captures : list (nat * string) }.

(** [pattern.search(s)]: the first way at the leftmost position that has
    one. *)
Fixpoint search_from (r : re) (pos : nat) (s : string) : option match_ :=
  match ways r s with
  | w :: _ => Some (Match pos (word w) (caps w))
  | [] =>
      match s with
      | "" => None
      | String _ s' => search_from r (S pos) s'
      end
  end.

Definition search (r : re) (s : string) : option match_ := search_from r 0 s.

(** [m.group(i)] of a group that took part in the match. *)
Fixpoint group (i : nat) (cs : list (nat * string)) : option string :=
  match cs with
  | [] => None
  | (j, w) :: cs' => if Nat.eqb i j then Some w else group i cs'
  end.

(** A string as the concatenation of its literal characters. *)
Fixpoint lit (s : string) : re :=
  match s with
  | "" => Opt (Sym (Set1 []))    (* matches the empty string only *)
  | String c "" => Sym (Chr c)
  | String c s' => Cat (Sym (Chr c)) (lit s')
  end.

End Re.

Import Re.

(** [ptn = re.compile("([h]?an[n]?a)(.*?)(thank(?:s| you))")] *)
Definition ptn : re :=
  Cat (Grp 1 (Cat (Opt (Sym (Set1 ["h"%char])))
             (Cat (lit "an")
             (Cat (Opt (Sym (Set1 ["n"%char])))
                  (Sym (Chr "a"%char))))))
 (Cat (Grp 2 (LazyStar Dot))
      (Grp 3 (Cat (lit "thank") (Alt (Sym (Chr "s"%char)) (lit " you"))))).

Definition punctuation : list ascii :=
  ["."; ","; ";"; ":"; "!"; "?"]%char.

(** [get_cmd(transcript, ptn)]: [None] when the pattern is not found, else
    the second group, stripped. *)
Definition get_cmd (transcript : string) (ptn : re) : option string :=
  let cmd := Str.strip (Str.sub_set punctuation " " transcript) in
  match search ptn cmd with
  | Some m =>
      match group 2 (captures m) with
      | Some g => Some (Str.strip g)
      | None => None
      end
  | None => None
  end.

(* ===================================================================== *)
(** ** Audio decode (the [np.frombuffer ... / 32768.0] of the loop) *)
(* ===================================================================== *)

Module Audio.

(** [np.float32]: binary32. *)
Definition float32 := spec_float.
Definition prec := 24.
Definition emax := 128.

(** The float32 nearest to an integer. *)
Definition of_Z (n : Z) : float32 := binary_normalize prec emax n 0 false.

Definition div (x y : float32) : float32 := SFdiv prec emax x y.

(** One [int16] sample from its two bytes, low byte first (the native
    byte order of the machines the program runs on). *)
Definition int16 (lo hi : byte) : Z :=
  let u := Z.of_N (Byte.to_N lo) + 256 * Z.of_N (Byte.to_N hi) in
  if u <? 32768 then u else u - 65536.

(** [np.frombuffer(audio_data, dtype=np.int16)]: [None] stands for the
    [ValueError] numpy raises when the size of the buffer is not a
    multiple of the element size. *)
Fixpoint frombuffer (audio_data : list byte) : option (list Z) :=
  match audio_data with
  | [] => Some []
  | [_] => None
  | lo :: hi :: more => option_map (cons (int16 lo hi)) (frombuffer more)
  end.

(** [.astype(np.float32) / 32768.0] on one sample. *)
Definition normalize (sample : Z) : float32 := div (of_Z sample) (of_Z 32768).

(** [audio_np] of [audio_data]. *)
Definition decode (audio_data : list byte) : option (list float32) :=
  option_map (map normalize) (frombuffer audio_data).

(** The rational a finite float32 stands for; infinities and NaN have
    none. *)
Definition to_Q (x : float32) : option Q :=
  match x with
  | S754_zero _ => Some 0%Q
  | S754_finite s m e =>
      let n := if s then Z.neg m else Z.pos m in
      Some (if 0 <=? e then inject_Z (n * 2 ^ e)
            else (n # Pos.pow 2 (Z.to_pos (- e))))%Q
  | _ => None
  end.

End Audio.

(* ===================================================================== *)
(** ** Exceptions, the recogniser, the trace of a run *)
(* ===================================================================== *)

Inductive exn :=
| KeyboardInterrupt
| Exception (cls msg : string).   (* an instance of a subclass of [Exception] *)

Inductive result (A : Type) :=
| Ok (a : A)
| Raise (e : exn).
Arguments Ok {A} a.
Arguments Raise {A} e.

(** The recogniser as the loop uses it: [audio_model(audio_np)["text"]]. *)
Definition pipe := list Audio.float32 -> result string.

(** What a run does, in order.  [Segment] is not an output: it records the
    decision of lines 196-204 for the drain at [now]. *)
Inductive action :=
| Print (line : string)
| PrintUserSays (cmd : option string)      (* [print(f"{msg.USERSAYS} {cmd}")] *)
| Sleep                                    (* [sleep(0.25)] *)
| Segment (now : Z) (phrase_complete : bool)
| Transcribe (audio_np : list Audio.float32)   (* the call [audio_model(audio_np)] *)
| FileWrite (content : string).            (* [f.write] on the transcript file *)

(** The state of [main] that the loop reads and writes. *)
Record state := State {
  phrase_time : option Z;
  transcription : list string;
  transcript : string
}.

(** Lines 134, 167, 168. *)
Definition init : state := State None [""] "".

(** What the loop finds in one iteration: the clock and the queue, or a
    [KeyboardInterrupt] delivered while it idles. *)
Inductive event :=
| Poll (now : Z) (queue : list (list byte))
| CtrlC.

(** [save_transcripts(transcripts)] *)
Definition save_transcripts (transcripts : list string) : list action :=
  [FileWrite (Str.join Str.newline transcripts)].

(** [transcription[-1] += text] *)
Fixpoint extend_last (transcription : list string) (text : string)
  : result (list string) :=
  match transcription with
  | [] => Raise (Exception "IndexError" "list index out of range")
  | [line] => Ok [line ++ text]
  | line :: more =>
      match extend_last more text with
      | Ok more' => Ok (line :: more')
      | Raise e => Raise e
      end
  end.

(* ===================================================================== *)
(** ** The engine loop of [main] (lines 191-241) *)
(* ===================================================================== *)

Section Engine.

(** [dt.timedelta(seconds=phrase_timeout)], in microseconds. *)
Variable phrase_timeout : Z.

(** What [load_model] returned: a recogniser, or [None]. *)
Variable audio_model : option pipe.

(** Lines 196-204: the boundary decision and the update of
    [phrase_time]. *)
Definition segment (st : state) (now : Z) : bool * state :=
  let phrase_complete :=
    match phrase_time st with
    | Some t => now - t >? phrase_timeout
    | None => false
    end in
  (phrase_complete, State (Some now) (transcription st) (transcript st)).

(** Lines 224-227. *)
Definition commit (transcription : list string) (text : string)
           (phrase_complete : bool) : result (list string) :=
  if phrase_complete then Ok (transcription ++ [text])%list
  else extend_last transcription text.

(** Lines 228-234: the new value of [transcript] and what is printed. *)
Definition feed (transcript text : string) : list action * string :=
  let transcript := transcript ++ text ++ " " in
  match search ptn (Str.lower transcript) with
  | Some _ =>
      let cmd := get_cmd (Str.lower transcript) ptn in
      ([PrintUserSays cmd], "")
  | None => ([], transcript)
  end.

(** The body of the [try] for one iteration: what it does, the state it
    leaves, and the exception that ended it, if any. *)
Definition loop_body (st : state) (now : Z) (queue : list (list byte))
  : list action * state * option exn :=
  match queue with
  | [] => ([Sleep], st, None)
  | _ :: _ =>
      let (phrase_complete, st1) := segment st now in
      let audio_data := List.concat queue in
      match Audio.decode audio_data with
      | None =>
          ([Segment now phrase_complete], st1,
           Some (Exception "ValueError"
                   "buffer size must be a multiple of element size"))
      | Some audio_np =>
          match audio_model with
          | None =>
              ([Segment now phrase_complete], st1,
               Some (Exception "TypeError"
                       "'NoneType' object is not callable"))
          | Some model =>
              match model audio_np with
              | Raise e =>
                  ([Segment now phrase_complete; Transcribe audio_np], st1,
                   Some e)
              | Ok raw =>
                  let text := Str.strip raw in
                  match commit (transcription st1) text phrase_complete with
                  | Raise e =>
                      ([Segment now phrase_complete; Transcribe audio_np],
                       st1, Some e)
                  | Ok lines =>
                      let (out, acc) := feed (transcript st1) text in
                      (([Segment now phrase_complete; Transcribe audio_np]
                         ++ out)%list,
                       State (phrase_time st1) lines acc, None)
                  end
              end
          end
      end
  end.

(** How one iteration leaves the [while True]. *)
Inductive control :=
| Next (st : state)          (* the loop goes on *)
| Break (st : state)         (* [except KeyboardInterrupt: break] *)
| Propagate (e : exn).       (* any other exception leaves [main] *)

Definition iteration (st : state) (ev : event) : list action * control :=
  match ev with
  | CtrlC => ([], Break st)
  | Poll now queue =>
      match loop_body st now queue with
      | (tr, st', None) => (tr, Next st')
      | (tr, st', Some KeyboardInterrupt) => (tr, Break st')
      | (tr, _, Some e) => (tr, Propagate e)
      end
  end.

Inductive loop_end :=
| Looping (st : state)       (* the events ran out, the loop still runs *)
| Broken (st : state)
| Raised (e : exn).

Fixpoint engine_loop (st : state) (events : list event)
  : list action * loop_end :=
  match events with
  | [] => ([], Looping st)
  | ev :: more =>
      match iteration st ev with
      | (tr, Next st') =>
          let (tr', r) := engine_loop st' more in ((tr ++ tr')%list, r)
      | (tr, Break st') => (tr, Broken st')
      | (tr, Propagate e) => (tr, Raised e)
      end
  end.

(** Lines 243-246.  [save_transcripts] receives the string [transcript],
    which it iterates character by character. *)
Definition session_end (st : state) : list action :=
  (Print "transcription:" :: map Print (transcription st)
     ++ save_transcripts (Str.iter (transcript st)))%list.

End Engine.

(* ===================================================================== *)
(** ** [load_model] and [main] *)
(* ===================================================================== *)

Definition MODEL_CHOICES (key : string) : option string :=
  if String.eqb key "small" then Some "distil-whisper/distil-small.en"
  else if String.eqb key "medium" then Some "distil-whisper/distil-medium.en"
  else if String.eqb key "large" then Some "distil-whisper/distil-large-v3"
  else None.

Section Main.

(** The body of the [try] of [load_model]: building the pipeline, which
    succeeds or raises. *)
Variable build_pipeline : string -> bool -> result pipe.

Definition load_model (model_name : string) (use_cpu : bool)
  : list action * result (option pipe) :=
  match build_pipeline model_name use_cpu with
  | Ok p => ([], Ok (Some p))
  | Raise (Exception _ msg) =>
      ([Print ("Error loading model " ++ model_name ++ ": " ++ msg)], Ok None)
  | Raise KeyboardInterrupt => ([], Raise KeyboardInterrupt)
  end.

(** The parsed arguments and the platform. *)
Variable linux : bool.                       (* ["linux" in platform] *)
Variable model : string.                     (* [args.model] *)
Variable phrase_timeout : Z.
Variable default_microphone : string.        (* [args.default_microphone] *)
Variable microphone_names : list string.     (* [list_microphone_names()] *)

Definition dquote : string := String (ascii_of_N 34) "".

(** Lines 145-158: [None] when [main] returns after listing the
    microphones, otherwise whether [source] got bound. *)
Definition select_source : list action * option bool :=
  if linux then
    if String.eqb default_microphone "" || String.eqb default_microphone "list"
    then
      (Print "Available microphone devices are: "
         :: map (fun name =>
                   Print ("Microphone with name " ++ dquote ++ name
                            ++ dquote ++ " found"))
                microphone_names,
       None)
    else
      ([], Some (existsb (Str.contains default_microphone) microphone_names))
  else ([], Some true).

Inductive exit :=
| Returned                   (* [main] returned *)
| Uncaught (e : exn)         (* an exception left [main] *)
| StillLooping (st : state). (* the events ran out inside the loop *)

(** [main()], given what the loop will find.  [use_cpu] is [True]
    whatever the command line says (a [store_true] flag that defaults to
    [True]); opening the microphone and starting the background listener
    are taken to succeed. *)
Definition main (events : list event) : list action * exit :=
  match select_source with
  | (tr0, None) => (tr0, Returned)
  | (tr0, Some bound) =>
      match MODEL_CHOICES model with
      | None => (tr0, Uncaught (Exception "KeyError" model))
      | Some model_name =>
          match load_model model_name true with
          | (tr1, Raise e) => ((tr0 ++ tr1)%list, Uncaught e)
          | (tr1, Ok audio_model) =>
              if negb bound then
                ((tr0 ++ tr1)%list,
                 Uncaught (Exception "UnboundLocalError" "source"))
              else
                let setup := (tr0 ++ tr1 ++ [Print "[READY]"])%list in
                match engine_loop phrase_timeout audio_model init events with
                | (tr, Looping st) => ((setup ++ tr)%list, StillLooping st)
                | (tr, Broken st) =>
                    ((setup ++ tr ++ session_end st)%list, Returned)
                | (tr, Raised e) => ((setup ++ tr)%list, Uncaught e)
                end
          end
      end
  end.

End Main.

(* ===================================================================== *)
(** ** Reading a trace; sequences of commits and feeds *)
(* ===================================================================== *)

(** The audio of the recogniser calls, in order. *)
Definition transcribed (tr : list action) : list (list Audio.float32) :=
  flat_map (fun a => match a with Transcribe x => [x] | _ => [] end) tr.

(** The segmenter's decisions, in order: the time of the drain and the
    boundary flag. *)
Definition segments (tr : list action) : list (Z * bool) :=
  flat_map (fun a => match a with Segment t b => [(t, b)] | _ => [] end) tr.

(** The contents written to the transcript file. *)
Definition written (tr : list action) : list string :=
  flat_map (fun a => match a with FileWrite c => [c] | _ => [] end) tr.

(** The commands printed. *)
Definition commands (tr : list action) : list (option string) :=
  flat_map (fun a => match a with PrintUserSays c => [c] | _ => [] end) tr.

(** The non-empty drains among the events, in order. *)
Definition drains (events : list event) : list (Z * list (list byte)) :=
  flat_map (fun ev => match ev with
                      | Poll now (c :: q) => [(now, c :: q)]
                      | _ => []
                      end) events.

(** A sequence of commits, each a text with its [phrase_complete] flag. *)
Fixpoint commit_all (transcription : list string)
         (commits : list (string * bool)) : result (list string) :=
  match commits with
  | [] => Ok transcription
  | (text, phrase_complete) :: more =>
      match commit transcription text phrase_complete with
      | Ok lines => commit_all lines more
      | Raise e => Raise e
      end
  end.

(** A sequence of feeds: what is printed, and the accumulator left. *)
Fixpoint feed_all (transcript : string) (texts : list string)
  : list action * string :=
  match texts with
  | [] => ([], transcript)
  | text :: more =>
      let (out, acc) := feed transcript text in
      let (out', acc') := feed_all acc more in
      ((out ++ out')%list, acc')
  end.


(** Whether the float32 computed for a sample is a well-formed binary32
    value standing for exactly the sample over 32768. *)
Definition exact_at (sample : Z) : bool :=
  valid_binary Audio.prec Audio.emax (Audio.normalize sample)
  && match Audio.to_Q (Audio.normalize sample) with
     | Some q => Qeq_bool q (sample # 32768)
     | None => false
     end.

(** Whether [f] holds of every positive number of at most [bits] binary
    digits. *)
Fixpoint all_sized (bits : nat) (f : positive -> bool) : bool :=
  match bits with
  | O => true
  | S b => f xH && all_sized b (fun p => f (xO p) && f (xI p))
  end.


(** Whether a scan string holds a closing acknowledgment, "thanks" or
    "thank you". *)
Definition has_ack (s : string) : bool :=
  Str.contains "thanks" s || Str.contains "thank you" s.

(** The accumulator that feeding [texts] builds when nothing matches: each
    text followed by one space. *)
Fixpoint spaced (texts : list string) : string :=
  match texts with
  | [] => ""
  | text :: more => text ++ " " ++ spaced more
  end.

(** What the transcript file of a session with these lines is to hold:
    the lines joined by line breaks, written once. *)
Definition save_transcripts_expected (lines : list string) : list string :=
  [Str.join Str.newline lines].

(** Sample inputs. *)
Definition chunk1 : list byte := [x01; x00].     (* one sample, 1 *)
Definition chunk2 : list byte := [x02; x00].     (* one sample, 2 *)
Definition four_seconds : Z := 4000000.


(* ===================================================================== *)
(** ** Predicates on texts, patterns and traces *)
(* ===================================================================== *)

(** Whether every character of [s] satisfies [p]. *)
Fixpoint all_chars (p : ascii -> bool) (s : string) : bool :=
  match s with
  | "" => true
  | String c s' => p c && all_chars p s'
  end.

(** Whether [s] holds no line break, the one character [.] refuses. *)
Definition no_newline (s : string) : bool := all_chars (accepts Dot) s.

(** Whether [s] holds none of the characters [get_cmd] replaces. *)
Definition no_punctuation (s : string) : bool :=
  all_chars (fun c => negb (Str.mem c punctuation)) s.

(** Whether [r] has no capturing group. *)
Fixpoint groupless (r : re) : bool :=
  match r with
  | Sym _ | LazyStar _ => true
  | Opt r1 => groupless r1
  | Cat r1 r2 | Alt r1 r2 => groupless r1 && groupless r2
  | Grp _ _ => false
  end.

(** The first group of [ptn], [[h]?an[n]?a], and its third,
    [thank(?:s| you)]. *)
Definition wake_re : re :=
  Cat (Opt (Sym (Set1 ["h"%char])))
      (Cat (lit "an") (Cat (Opt (Sym (Set1 ["n"%char]))) (Sym (Chr "a"%char)))).

Definition ack_re : re :=
  Cat (lit "thank") (Alt (Sym (Chr "s"%char)) (lit " you")).

(** The texts the first group matches, and those the third matches. *)
Definition wake_forms : list string := ["hanna"; "hana"; "anna"; "ana"].
Definition ack_forms : list string := ["thanks"; "thank you"].

(** The texts the recogniser returned for the calls of a trace, stripped
    as the loop strips them; a call that raised returned none. *)
Definition recognised (audio_model : option pipe) (tr : list action)
  : list string :=
  flat_map (fun a =>
              match a, audio_model with
              | Transcribe x, Some model =>
                  match model x with
                  | Ok raw => [Str.strip raw]
                  | Raise _ => []
                  end
              | _, _ => []
              end) tr.

(** The number of boundaries signalled in a trace. *)
Definition boundaries_signalled (tr : list action) : nat :=
  List.length (filter snd (segments tr)).

(* ===================================================================== *)
(** ** Transcript assembly (lines 224-227) *)
(* ===================================================================== *)

Lemma extend_last_snoc (lines : list string) (line text : string) :
  extend_last (lines ++ [line])%list text = Ok (lines ++ [(line ++ text)%string])%list.
Proof.
  induction lines as [|l lines IH]; [reflexivity|].
  change ((l :: lines) ++ [line])%list with (l :: (lines ++ [line]))%list.
  cbn [extend_last]. rewrite IH.
  destruct (lines ++ [line])%list eqn:E; [|reflexivity].
  now destruct lines.
Qed.

(** C1, as the code has it: a commit without a boundary appends the text
    to the open last line (it does not replace the line), a commit with a
    boundary adds a line; so four commits flagged false, false, true,
    false on the initial transcript leave two lines, the first the first
    two texts joined and the second the last two texts joined. *)
Theorem C1_commit_appends :
  (forall lines line text,
      commit (lines ++ [line])%list text false
      = Ok (lines ++ [(line ++ text)%string])%list) /\
  (forall lines text, commit lines text true = Ok (lines ++ [text])%list) /\
  (forall t1 t2 t3 t4,
      commit_all (transcription init)
                 [(t1, false); (t2, false); (t3, true); (t4, false)]
      = Ok [t1 ++ t2; t3 ++ t4]).
Proof.
  split; [|split].
  - intros. apply extend_last_snoc.
  - reflexivity.
  - intros. reflexivity.
Qed.

(** C1 as stated fails: after commits "a", "b", "c", "d" flagged false,
    false, true, false the lines are "ab" and "cd", not "c" and "d"; and a
    commit without a boundary on the line "a" leaves "ab", not "b". *)
Lemma C1_counterexample :
  commit_all (transcription init)
             [("a", false); ("b", false); ("c", true); ("d", false)]
  = Ok ["ab"; "cd"] /\
  commit_all (transcription init)
             [("a", false); ("b", false); ("c", true); ("d", false)]
  <> Ok ["c"; "d"] /\
  commit ["a"] "b" false <> Ok ["b"].
Proof.
  split; [reflexivity | split; intro H; cbv in H; discriminate H].
Qed.

(* ===================================================================== *)
(** ** One iteration of the loop *)
(* ===================================================================== *)

Section EngineFacts.

Variable phrase_timeout : Z.
Variable audio_model : option pipe.

Lemma feed_cases (acc text : string) :
  (feed acc text = ([], acc ++ text ++ " ")
   /\ search ptn (Str.lower (acc ++ text ++ " ")) = None) \/
  (exists cmd m, feed acc text = ([PrintUserSays cmd], "")
   /\ search ptn (Str.lower (acc ++ text ++ " ")) = Some m).
Proof.
  unfold feed. destruct (search ptn _) as [m|] eqn:E.
  - right. eauto.
  - left. auto.
Qed.

Lemma feed_silent (acc text : string) :
  segments (fst (feed acc text)) = []
  /\ transcribed (fst (feed acc text)) = []
  /\ written (fst (feed acc text)) = [].
Proof.
  destruct (feed_cases acc text) as [[-> _] | (cmd & m & -> & _)];
    repeat split.
Qed.

(** What a non-empty drain leaves in the trace and in [phrase_time],
    however the iteration ends. *)
Lemma loop_body_drain st now c q tr st' r :
  loop_body phrase_timeout audio_model st now (c :: q) = (tr, st', r) ->
  segments tr = [(now, fst (segment phrase_timeout st now))]
  /\ phrase_time st' = Some now
  /\ written tr = []
  /\ match Audio.decode (List.concat (c :: q)), audio_model with
     | Some audio, Some _ => transcribed tr = [audio]
     | _, _ => transcribed tr = [] /\ r <> None
     end.
Proof.
  unfold loop_body.
  destruct (segment phrase_timeout st now) as [b st1] eqn:Es.
  assert (Hpt : phrase_time st1 = Some now)
    by (unfold segment in Es; inversion Es; reflexivity).
  destruct (Audio.decode _) as [audio|].
  2:{ intros [= <- <- <-]. repeat split; auto; discriminate. }
  destruct audio_model as [model|].
  2:{ intros [= <- <- <-]. repeat split; auto; discriminate. }
  destruct (model audio) as [raw|e].
  2:{ intros [= <- <- <-]. repeat split; auto. }
  destruct (commit _ _ _) as [lines|e].
  2:{ intros [= <- <- <-]. repeat split; auto. }
  destruct (feed (transcript st1) (Str.strip raw)) as [out acc] eqn:Ef.
  intros [= <- <- <-].
  destruct (feed_silent (transcript st1) (Str.strip raw)) as (H1 & H2 & H3).
  rewrite Ef in H1, H2, H3. cbn [fst] in *.
  unfold segments, transcribed, written in *.
  cbn [flat_map app]. rewrite H1, H2, H3. repeat split; auto.
Qed.

Lemma iteration_drain st now c q tr ctl :
  iteration phrase_timeout audio_model st (Poll now (c :: q)) = (tr, ctl) ->
  segments tr = [(now, fst (segment phrase_timeout st now))]
  /\ written tr = []
  /\ match ctl with
     | Next st' =>
         phrase_time st' = Some now
         /\ exists audio, Audio.decode (List.concat (c :: q)) = Some audio
                          /\ transcribed tr = [audio]
     | _ =>
         transcribed tr = []
         \/ exists audio, Audio.decode (List.concat (c :: q)) = Some audio
                          /\ transcribed tr = [audio]
     end.
Proof.
  unfold iteration.
  destruct (loop_body _ _ st now (c :: q)) as [[tr0 st'] r] eqn:E.
  apply loop_body_drain in E. destruct E as (Hs & Hp & Hw & Ha).
  assert (Hany : transcribed tr0 = []
                 \/ exists audio, Audio.decode (List.concat (c :: q)) = Some audio
                                  /\ transcribed tr0 = [audio]).
  { destruct (Audio.decode _) as [audio|]; [|now left].
    destruct audio_model; [right; eauto | now left]. }
  destruct r as [[|cl msg]|]; intros [= <- <-]; repeat split; auto.
  destruct (Audio.decode _) as [audio|]; [|now destruct Ha].
  destruct audio_model; [eauto | now destruct Ha].
Qed.

End EngineFacts.

(* ===================================================================== *)
(** ** Runs of the loop: segmentation and the audio transcribed *)
(* ===================================================================== *)

Section Runs.

Variable phrase_timeout : Z.
Variable audio_model : option pipe.


Lemma segments_app tr1 tr2 :
  segments (tr1 ++ tr2) = (segments tr1 ++ segments tr2)%list.
Proof. apply flat_map_app. Qed.

Lemma transcribed_app tr1 tr2 :
  transcribed (tr1 ++ tr2) = (transcribed tr1 ++ transcribed tr2)%list.
Proof. apply flat_map_app. Qed.

Lemma written_app tr1 tr2 :
  written (tr1 ++ tr2) = (written tr1 ++ written tr2)%list.
Proof. apply flat_map_app. Qed.


(** Each recogniser call of a run gets the decoded bytes of one drain,
    the calls following the drains in order. *)
Lemma run_transcribed events : forall st tr r,
  engine_loop phrase_timeout audio_model st events = (tr, r) ->
  Forall2 (fun audio d => Audio.decode (List.concat (snd d)) = Some audio)
          (transcribed tr)
          (firstn (List.length (transcribed tr)) (drains events))
  /\ forall st', r = Looping st' ->
       List.length (transcribed tr) = List.length (drains events).
Proof.
  induction events as [|ev more IH]; intros st tr r; cbn [engine_loop].
  - intros [= <- <-]. cbn. split; [constructor | now intros st' [= ->]].
  - destruct (iteration _ _ st ev) as [tr1 ctl] eqn:Ei.
    destruct ev as [now [|c q]|].
    + cbn in Ei. injection Ei as <- <-.
      destruct (engine_loop _ _ st more) as [tr' r'] eqn:Er.
      intros [= <- <-]. apply IH in Er. exact Er.
    + apply iteration_drain in Ei. destruct Ei as (_ & _ & Hc).
      assert (Hstop : forall r0, (tr1, r0) = (tr, r) ->
                (forall st', r0 <> Looping st') ->
                (transcribed tr1 = []
                 \/ exists audio,
                     Audio.decode (List.concat (c :: q)) = Some audio
                     /\ transcribed tr1 = [audio]) ->
                Forall2 (fun audio d =>
                           Audio.decode (List.concat (snd d)) = Some audio)
                        (transcribed tr)
                        (firstn (List.length (transcribed tr))
                                (drains (Poll now (c :: q) :: more)))
                /\ forall st', r = Looping st' ->
                     List.length (transcribed tr)
                     = List.length (drains (Poll now (c :: q) :: more))).
      { intros r0 [= <- <-] Hr [Ht | (audio & Hd & Ht)]; rewrite Ht; cbn.
        - split; [constructor | intros st' E; now apply Hr in E].
        - split; [repeat constructor; exact Hd
                 | intros st' E; now apply Hr in E]. }
      destruct ctl as [st1|st1|e].
      * destruct (engine_loop _ _ st1 more) as [tr' r'] eqn:Er.
        intros [= <- <-]. apply IH in Er. destruct Er as (Hf & Hl).
        destruct Hc as (_ & audio & Hd & Ht).
        rewrite transcribed_app, Ht. cbn. split.
        -- constructor; [exact Hd | exact Hf].
        -- intros st' E. f_equal. eapply Hl, E.
      * intros E. eapply Hstop; [exact E | discriminate | exact Hc].
      * intros E. eapply Hstop; [exact E | discriminate | exact Hc].
    + cbn in Ei. injection Ei as <- <-. intros [= <- <-].
      cbn. split; [constructor | discriminate].
Qed.

(** Nothing is written to the transcript file inside the loop. *)
Lemma run_written events : forall st tr r,
  engine_loop phrase_timeout audio_model st events = (tr, r) -> written tr = [].
Proof.
  induction events as [|ev more IH]; intros st tr r; cbn [engine_loop].
  - now intros [= <- <-].
  - destruct (iteration _ _ st ev) as [tr1 ctl] eqn:Ei.
    assert (Hw : written tr1 = []).
    { destruct ev as [now [|c q]|].
      - cbn in Ei. now injection Ei as <- <-.
      - now apply iteration_drain in Ei.
      - cbn in Ei. now injection Ei as <- <-. }
    destruct ctl as [st1|st1|e]; try now intros [= <- <-].
    destruct (engine_loop _ _ st1 more) as [tr' r'] eqn:Er.
    intros [= <- <-]. rewrite written_app, Hw. cbn. eapply IH, Er.
Qed.

End Runs.



(** C2, as the code has it: the audio of the N-th recogniser call of a run
    is the decoded concatenation, in arrival order, of the chunks found in
    the queue by the N-th non-empty drain alone (no buffer is kept from
    one drain to the next, boundary or not); while the loop runs, every
    non-empty drain has had its call. *)
Theorem C2_audio_is_current_drain (phrase_timeout : Z)
        (audio_model : option pipe) (st : state) (events : list event)
        (tr : list action) (r : loop_end) :
  engine_loop phrase_timeout audio_model st events = (tr, r) ->
  (forall n audio,
      nth_error (transcribed tr) n = Some audio ->
      exists now queue,
        nth_error (drains events) n = Some (now, queue)
        /\ Audio.decode (List.concat queue) = Some audio) /\
  (forall st', r = Looping st' ->
      List.length (transcribed tr) = List.length (drains events)).
Proof.
  intros Hrun. apply run_transcribed in Hrun. destruct Hrun as [Hf Hl].
  split; [|exact Hl].
  assert (G : forall (l : list (list Audio.float32)) ds,
             Forall2 (fun audio (d : Z * list (list byte)) =>
                        Audio.decode (List.concat (snd d)) = Some audio) l ds ->
             forall n audio, nth_error l n = Some audio ->
               exists d, nth_error ds n = Some d
                         /\ Audio.decode (List.concat (snd d)) = Some audio).
  { induction 1 as [|a d l ds Ha _ IH]; intros n audio Hn.
    - now destruct n.
    - destruct n as [|n]; cbn in Hn |- *.
      + injection Hn as <-. eauto.
      + now apply IH. }
  intros n audio Hn. destruct (G _ _ Hf n audio Hn) as ([now queue] & Hd & Ha).
  exists now, queue. split; [|exact Ha].
  clear - Hd. revert n Hd.
  generalize (List.length (transcribed tr)) (drains events).
  induction n as [|n IH]; intros l k Hk; [now destruct k|].
  destruct l as [|d l]; [now destruct k|].
  destruct k as [|k]; cbn in Hk |- *; [exact Hk | now apply IH].
Qed.

(** C2 on two drains one second apart. *)
Lemma C2_witness :
  exists now queue,
    nth_error (drains [Poll 0 [chunk1]; Poll 1000000 [chunk2]]) 1
    = Some (now, queue)
    /\ Audio.decode (List.concat queue) = Some [Audio.normalize 2].
Proof.
  pose (model := Some (fun _ : list Audio.float32 => Ok "x")).
  pose (events := [Poll 0 [chunk1]; Poll 1000000 [chunk2]]).
  exact (proj1 (C2_audio_is_current_drain four_seconds model init events
                  (fst (engine_loop four_seconds model init events))
                  (snd (engine_loop four_seconds model init events))
                  eq_refl)
               1%nat [Audio.normalize 2] eq_refl).
Defined.

(** C2 as stated fails: two drains one second apart, with a timeout of
    four seconds, signal no boundary, and the second recogniser call gets
    the second chunk alone, not the first and second chunks together. *)
Lemma C2_counterexample :
  let tr := fst (engine_loop four_seconds (Some (fun _ => Ok "x")) init
                             [Poll 0 [chunk1]; Poll 1000000 [chunk2]]) in
  map snd (segments tr) = [false; false]
  /\ nth_error (transcribed tr) 1 = Audio.decode chunk2
  /\ nth_error (transcribed tr) 1 <> Audio.decode (chunk1 ++ chunk2)%list.
Proof.
  split; [reflexivity | split; [reflexivity|]].
  intros H. vm_compute in H. discriminate H.
Qed.

(* ===================================================================== *)
(** ** [main]: setup, failures, session end *)
(* ===================================================================== *)

Section MainFacts.

Variable build_pipeline : string -> bool -> result pipe.
Variable linux : bool.
Variable model : string.
Variable phrase_timeout : Z.
Variable default_microphone : string.
Variable microphone_names : list string.

Lemma written_prints (lines : list string) : written (map Print lines) = [].
Proof. induction lines; auto. Qed.

Lemma select_source_written :
  written (fst (select_source linux default_microphone microphone_names)) = [].
Proof.
  unfold select_source, dquote. destruct linux; [|reflexivity].
  destruct (_ || _); [|reflexivity].
  cbn [fst]. rewrite <- map_map with (g := Print).
  apply (written_prints ("Available microphone devices are: " :: _)).
Qed.

Lemma load_model_written name use_cpu :
  written (fst (load_model build_pipeline name use_cpu)) = [].
Proof.
  unfold load_model. now destruct (build_pipeline name use_cpu) as [p|[|c m]].
Qed.

(** An exception that leaves [main] leaves no transcript file behind. *)
Lemma main_uncaught_written events tr e :
  main build_pipeline linux model phrase_timeout default_microphone
       microphone_names events = (tr, Uncaught e) ->
  written tr = [].
Proof.
  unfold main.
  pose proof select_source_written as Hs.
  destruct (select_source _ _ _) as [tr0 [bound|]]; [|discriminate].
  cbn [fst] in Hs.
  destruct (MODEL_CHOICES model) as [name|];
    [|now intros [= <- _]].
  pose proof (load_model_written name true) as Hm.
  destruct (load_model _ name true) as [tr1 [am|e1]]; cbn [fst] in Hm.
  2:{ intros [= <- _]. now rewrite written_app, Hs, Hm. }
  destruct bound; cbn [negb].
  2:{ intros [= <- _]. now rewrite written_app, Hs, Hm. }
  destruct (engine_loop _ am init events) as [tr2 [st|st|e2]] eqn:Er;
    try discriminate.
  intros [= <- _]. apply run_written in Er.
  now rewrite !written_app, Hs, Hm, Er.
Qed.

End MainFacts.

(** A run over events followed by more events is the run over the first,
    continued over the others from the state reached if the loop still
    runs; once the loop has ended, later events change nothing. *)
Lemma engine_loop_app (phrase_timeout : Z) (audio_model : option pipe)
      (events1 events2 : list event) :
  forall st,
    engine_loop phrase_timeout audio_model st (events1 ++ events2)
    = match engine_loop phrase_timeout audio_model st events1 with
      | (tr1, Looping st1) =>
          let (tr2, r) := engine_loop phrase_timeout audio_model st1 events2 in
          ((tr1 ++ tr2)%list, r)
      | ended => ended
      end.
Proof.
  induction events1 as [|ev more IH]; intros st.
  - cbn. now destruct (engine_loop _ _ st events2).
  - cbn [app engine_loop].
    destruct (iteration _ _ st ev) as [tr [st1|st1|e]]; try reflexivity.
    rewrite IH.
    destruct (engine_loop _ _ st1 more) as [tr1 [st2|st2|e]]; try reflexivity.
    destruct (engine_loop _ _ st2 events2) as [tr2 r].
    now rewrite app_assoc.
Qed.

(** The drain on which the recogniser raises an exception other than
    [KeyboardInterrupt] ends the loop with that exception, whatever events
    follow: the trace stops at the call. *)
Lemma engine_loop_recognizer_raises phrase_timeout recognizer st before now
      c q after tr1 st1 audio cls msg :
  engine_loop phrase_timeout (Some recognizer) st before = (tr1, Looping st1) ->
  Audio.decode (List.concat (c :: q)) = Some audio ->
  recognizer audio = Raise (Exception cls msg) ->
  engine_loop phrase_timeout (Some recognizer) st
              (before ++ Poll now (c :: q) :: after)
  = ((tr1 ++ [Segment now (fst (segment phrase_timeout st1 now));
              Transcribe audio])%list,
     Raised (Exception cls msg)).
Proof.
  intros Hb Hd Hm. rewrite engine_loop_app, Hb.
  cbn [engine_loop iteration]. unfold loop_body.
  destruct (segment phrase_timeout st1 now) as [b st2]. rewrite Hd, Hm.
  reflexivity.
Qed.

(** C5, as the code has it: an exception of the recogniser call other than
    [KeyboardInterrupt] is not caught by the loop and ends it; the code
    after the loop does not run, so no transcript file is written.  When
    the loop is still running and the recogniser raises on the next
    drain, the loop ends there with that exception, whatever events
    follow; [main], once set up, ends with the exception uncaught, its
    trace stopping at the call, and has written nothing.  Also: the
    failing iteration propagates the exception; a run of the loop that
    ends in an exception, and a run of [main] that an exception leaves,
    write nothing. *)
Theorem C5_recognizer_failure_not_persisted :
  (forall phrase_timeout recognizer st before now c q after tr1 st1 audio
          cls msg,
      engine_loop phrase_timeout (Some recognizer) st before
      = (tr1, Looping st1) ->
      Audio.decode (List.concat (c :: q)) = Some audio ->
      recognizer audio = Raise (Exception cls msg) ->
      engine_loop phrase_timeout (Some recognizer) st
                  (before ++ Poll now (c :: q) :: after)
      = ((tr1 ++ [Segment now (fst (segment phrase_timeout st1 now));
                  Transcribe audio])%list,
         Raised (Exception cls msg))) /\
  (forall build_pipeline linux model phrase_timeout default_microphone
          microphone_names name recognizer tr0 before now c q after tr1 st1
          audio cls msg,
      select_source linux default_microphone microphone_names
      = (tr0, Some true) ->
      MODEL_CHOICES model = Some name ->
      build_pipeline name true = Ok recognizer ->
      engine_loop phrase_timeout (Some recognizer) init before
      = (tr1, Looping st1) ->
      Audio.decode (List.concat (c :: q)) = Some audio ->
      recognizer audio = Raise (Exception cls msg) ->
      main build_pipeline linux model phrase_timeout default_microphone
           microphone_names (before ++ Poll now (c :: q) :: after)
      = ((tr0 ++ [Print "[READY]"] ++ tr1
            ++ [Segment now (fst (segment phrase_timeout st1 now));
                Transcribe audio])%list,
         Uncaught (Exception cls msg))
      /\ written (tr0 ++ [Print "[READY]"] ++ tr1
                    ++ [Segment now (fst (segment phrase_timeout st1 now));
                        Transcribe audio]) = []) /\
  (forall phrase_timeout recognizer st now c q audio cls msg,
      Audio.decode (List.concat (c :: q)) = Some audio ->
      recognizer audio = Raise (Exception cls msg) ->
      snd (iteration phrase_timeout (Some recognizer) st (Poll now (c :: q)))
      = Propagate (Exception cls msg)) /\
  (forall phrase_timeout audio_model st events tr e,
      engine_loop phrase_timeout audio_model st events = (tr, Raised e) ->
      written tr = []) /\
  (forall build_pipeline linux model phrase_timeout default_microphone
          microphone_names events tr e,
      main build_pipeline linux model phrase_timeout default_microphone
           microphone_names events = (tr, Uncaught e) ->
      written tr = []).
Proof.
  split; [|split; [|split; [|split]]].
  - intros. now apply engine_loop_recognizer_raises.
  - intros bp linux model t mic mics name m tr0 before now c q after tr1 st1
           audio cls msg Hs Hc Hb Hl Hd Hm.
    assert (E : main bp linux model t mic mics
                     (before ++ Poll now (c :: q) :: after)
                = ((tr0 ++ [Print "[READY]"] ++ tr1
                      ++ [Segment now (fst (segment t st1 now));
                          Transcribe audio])%list,
                   Uncaught (Exception cls msg))).
    { unfold main. rewrite Hs, Hc. unfold load_model. rewrite Hb.
      cbn [negb app].
      rewrite (engine_loop_recognizer_raises t m init before now c q after
                 tr1 st1 audio cls msg Hl Hd Hm).
      now rewrite <- !app_assoc. }
    split; [exact E|]. eapply main_uncaught_written, E.
  - intros t m st now c q audio cls msg Hd Hm.
    unfold iteration, loop_body.
    destruct (segment t st now) as [b st1]. rewrite Hd, Hm. reflexivity.
  - intros. eapply run_written; eauto.
  - intros. eapply main_uncaught_written; eauto.
Qed.

(** A recogniser that transcribes a one-sample buffer and fails on any
    other. *)
Lemma C5_witness :
  let recognizer := fun a : list Audio.float32 =>
    match a with
    | [_] => Ok "hello"
    | _ => Raise (Exception "RuntimeError" "out of memory")
    end in
  let boom := Exception "RuntimeError" "out of memory" in
  let events := [Poll 0 [chunk1]; Poll 1000000 [chunk1; chunk2]; CtrlC] in
  engine_loop four_seconds (Some recognizer) init events
  = ([Segment 0 false; Transcribe [Audio.normalize 1];
      Segment 1000000 false;
      Transcribe [Audio.normalize 1; Audio.normalize 2]],
     Raised boom)
  /\ main (fun _ _ => Ok recognizer) true "small" four_seconds "pulse"
          ["pulse"] events
     = ([Print "[READY]"; Segment 0 false; Transcribe [Audio.normalize 1];
         Segment 1000000 false;
         Transcribe [Audio.normalize 1; Audio.normalize 2]],
        Uncaught boom)
  /\ snd (iteration four_seconds (Some recognizer) init
                    (Poll 0 [chunk1; chunk2]))
     = Propagate boom
  /\ written (fst (engine_loop four_seconds (Some recognizer) init events))
     = []
  /\ written (fst (main (fun _ _ => Ok recognizer) true "small" four_seconds
                        "pulse" ["pulse"] events)) = [].
Proof.
  intros recognizer boom events.
  destruct C5_recognizer_failure_not_persisted as (Hrun & Hmain & Hi & Hl & Hm).
  split; [|split; [|split; [|split]]].
  - exact (Hrun four_seconds recognizer init [Poll 0 [chunk1]] 1000000
                chunk1 [chunk2] [CtrlC]
                [Segment 0 false; Transcribe [Audio.normalize 1]]
                (State (Some 0) ["hello"] "hello ")
                [Audio.normalize 1; Audio.normalize 2]
                "RuntimeError" "out of memory" eq_refl eq_refl eq_refl).
  - exact (proj1 (Hmain (fun _ _ => Ok recognizer) true "small" four_seconds
                        "pulse" ["pulse"] "distil-whisper/distil-small.en"
                        recognizer [] [Poll 0 [chunk1]] 1000000
                        chunk1 [chunk2] [CtrlC]
                        [Segment 0 false; Transcribe [Audio.normalize 1]]
                        (State (Some 0) ["hello"] "hello ")
                        [Audio.normalize 1; Audio.normalize 2]
                        "RuntimeError" "out of memory"
                        eq_refl eq_refl eq_refl eq_refl eq_refl eq_refl)).
  - exact (Hi four_seconds recognizer init 0 chunk1 [chunk2]
              [Audio.normalize 1; Audio.normalize 2]
              "RuntimeError" "out of memory" eq_refl eq_refl).
  - exact (Hl four_seconds (Some recognizer) init events
              [Segment 0 false; Transcribe [Audio.normalize 1];
               Segment 1000000 false;
               Transcribe [Audio.normalize 1; Audio.normalize 2]]
              boom eq_refl).
  - exact (Hm (fun _ _ => Ok recognizer) true "small" four_seconds
              "pulse" ["pulse"] events
              [Print "[READY]"; Segment 0 false;
               Transcribe [Audio.normalize 1]; Segment 1000000 false;
               Transcribe [Audio.normalize 1; Audio.normalize 2]]
              boom eq_refl).
Defined.

(** C5 as stated fails: the recogniser transcribes a first drain as
    "hello" and raises on the second; the exception leaves [main], and
    nothing was written although a line had been committed. *)
Lemma C5_counterexample :
  let recognizer := fun a : list Audio.float32 =>
    match a with
    | [_] => Ok "hello"
    | _ => Raise (Exception "RuntimeError" "out of memory")
    end in
  let session := main (fun _ _ => Ok recognizer) true "small" four_seconds
                      "pulse" ["pulse"] in
  snd (session [Poll 0 [chunk1]])
  = StillLooping (State (Some 0) ["hello"] "hello ")
  /\ snd (session [Poll 0 [chunk1]; Poll 1000000 [chunk1; chunk2]])
     = Uncaught (Exception "RuntimeError" "out of memory")
  /\ written (fst (session [Poll 0 [chunk1]; Poll 1000000 [chunk1; chunk2]]))
     = [].
Proof. repeat split. Qed.

(** C3 at two sessions ended by [KeyboardInterrupt].  In the first the
    recogniser returned "hi" for the only drain: the transcript is the
    line "hi", but the file gets the characters of the command
    accumulator "hi " one per line.  In the second it returned
    "hanna stop thanks": a command was matched, the accumulator was
    cleared, and the file is empty.  [session_end] passes [transcript]
    (a string) where [save_transcripts] expects the list of lines. *)
Theorem C3_saved_file_is_not_the_transcript :
  let session text :=
    main (fun _ _ => Ok (fun _ => Ok text)) true "small" four_seconds
         "pulse" ["pulse"] [Poll 0 [chunk1]; CtrlC] in
  session "hi"
  = ([Print "[READY]"; Segment 0 false; Transcribe [Audio.normalize 1];
      Print "transcription:"; Print "hi";
      FileWrite ("h" ++ Str.newline ++ "i" ++ Str.newline ++ " ")],
     Returned)
  /\ written (fst (session "hi")) <> save_transcripts_expected ["hi"]
  /\ session "hanna stop thanks"
     = ([Print "[READY]"; Segment 0 false; Transcribe [Audio.normalize 1];
         PrintUserSays (Some "stop");
         Print "transcription:"; Print "hanna stop thanks";
         FileWrite ""],
        Returned)
  /\ written (fst (session "hanna stop thanks"))
     <> save_transcripts_expected ["hanna stop thanks"].
Proof.
  split; [reflexivity | split; [|split; [reflexivity|]]];
    intros H; vm_compute in H; discriminate H.
Qed.

(** C4 when building the pipeline raises: [load_model] prints the error
    and returns [None], and [main] goes on: it announces readiness and
    runs the loop without a recogniser, idling on an empty queue and
    failing with a [TypeError] on the first non-empty drain. *)
Theorem C4_loop_entered_after_failed_load :
  (forall cls msg phrase_timeout events,
      main (fun _ _ => Raise (Exception cls msg)) false "small"
           phrase_timeout "" [] events
      = let (tr, r) := engine_loop phrase_timeout None init events in
        ([Print ("Error loading model distil-whisper/distil-small.en: " ++ msg);
          Print "[READY]"] ++ tr
           ++ match r with Broken st => session_end st | _ => [] end,
         match r with
         | Looping st => StillLooping st
         | Broken _ => Returned
         | Raised e => Uncaught e
         end)%list) /\
  main (fun _ _ => Raise (Exception "OSError" "no such model")) true "small"
       four_seconds "pulse" ["pulse"] [Poll 0 []; Poll 250000 [chunk1]]
  = ([Print "Error loading model distil-whisper/distil-small.en: no such model";
      Print "[READY]"; Sleep; Segment 250000 false],
     Uncaught (Exception "TypeError" "'NoneType' object is not callable")).
Proof.
  split; [|reflexivity].
  intros cls msg t events. unfold main, load_model, select_source.
  cbn [MODEL_CHOICES String.eqb Ascii.eqb Bool.eqb negb app].
  destruct (engine_loop t None init events) as [tr [st|st|e]];
    cbn [app]; now rewrite ?app_nil_r.
Qed.

(* ===================================================================== *)
(** ** Strings and the matcher *)
(* ===================================================================== *)

Section StringFacts.

Lemma append_assoc (a b c : string) : (a ++ b) ++ c = a ++ b ++ c.
Proof. induction a as [|x a IH]; cbn; [reflexivity | now rewrite IH]. Qed.

Lemma append_nil_r (a : string) : a ++ "" = a.
Proof. induction a as [|x a IH]; cbn; [reflexivity | now rewrite IH]. Qed.

Lemma lower_app (a b : string) :
  Str.lower (a ++ b) = Str.lower a ++ Str.lower b.
Proof. induction a as [|x a IH]; cbn; [reflexivity | now rewrite IH]. Qed.

Lemma prefix_app (t s : string) : prefix t (t ++ s) = true.
Proof.
  induction t as [|x t IH]; cbn; [now destruct s|].
  destruct (ascii_dec x x); [exact IH | contradiction].
Qed.

Lemma prefix_app_l (t a b : string) :
  prefix t a = true -> prefix t (a ++ b) = true.
Proof.
  revert a. induction t as [|x t IH]; intros a; [now destruct a, b|].
  destruct a as [|y a]; cbn; [discriminate|].
  destruct (ascii_dec x y); [apply IH | discriminate].
Qed.

Lemma contains_app_l (t a b : string) :
  Str.contains t a = true -> Str.contains t (a ++ b) = true.
Proof.
  induction a as [|y a IH]; cbn [Str.contains append].
  - rewrite orb_false_r. intros H.
    destruct t; [now destruct b | discriminate].
  - intros H. apply orb_true_iff in H. apply orb_true_iff.
    destruct H as [H|H]; [left | right; now apply IH].
    now apply (prefix_app_l t (String y a) b).
Qed.

Lemma contains_app_r (t a b : string) :
  Str.contains t b = true -> Str.contains t (a ++ b) = true.
Proof.
  intros H. induction a as [|y a IH]; cbn [Str.contains append]; [exact H|].
  rewrite IH. apply orb_true_r.
Qed.

(** A string that occurs in [s] is found by [contains]. *)
Lemma contains_middle (t pre post : string) :
  Str.contains t (pre ++ t ++ post) = true.
Proof.
  apply contains_app_r. destruct (t ++ post) eqn:E; cbn [Str.contains];
    rewrite <- E, prefix_app; reflexivity.
Qed.

Lemma get_snoc (s : string) (c : ascii) :
  get (String.length s) (s ++ String c "") = Some c.
Proof. induction s as [|x s IH]; [reflexivity | exact IH]. Qed.

Lemma length_snoc (s : string) (c : ascii) :
  String.length (s ++ String c "") = S (String.length s).
Proof. induction s as [|x s IH]; cbn; [reflexivity | now rewrite IH]. Qed.

(** A prefix of [s ++ " "] is a prefix of [s], or is [s ++ " "]. *)
Lemma prefix_snoc (t s : string) (c : ascii) :
  prefix t (s ++ String c "") = true ->
  prefix t s = true \/ t = s ++ String c "".
Proof.
  revert s. induction t as [|x t IH]; intros s; [left; now destruct s|].
  destruct s as [|y s]; cbn.
  - destruct (ascii_dec x c) as [->|]; [|discriminate].
    destruct t; [now right | discriminate].
  - destruct (ascii_dec x y) as [->|]; [|discriminate].
    intros H. destruct (IH s H) as [Hp | ->]; [now left | now right].
Qed.

(** Appending a character that is not the last of [t] adds no
    occurrence of [t]. *)
Lemma contains_snoc (t s : string) (c : ascii) :
  get (pred (String.length t)) t <> Some c ->
  t <> "" ->
  Str.contains t s = false ->
  Str.contains t (s ++ String c "") = false.
Proof.
  intros Hlast Hne.
  assert (Hp : forall s', prefix t s' = false ->
                          prefix t (s' ++ String c "") = false).
  { intros s' H. destruct (prefix t (s' ++ String c "")) eqn:E; [|reflexivity].
    apply prefix_snoc in E. destruct E as [E|E]; [congruence|].
    exfalso. apply Hlast. rewrite E, length_snoc. apply get_snoc. }
  induction s as [|y s IH]; cbn [Str.contains append].
  - rewrite !orb_false_r. intros H.
    change (String c "") with ("" ++ String c ""). rewrite (Hp "" H).
    destruct t; [contradiction | reflexivity].
  - intros H. apply orb_false_iff in H. destruct H as [H1 H2].
    apply orb_false_iff. split; [exact (Hp (String y s) H1) | now apply IH].
Qed.

End StringFacts.

Section MatcherFacts.

Lemma lazy_star_sound (c : cls) (s : string) (w : way) :
  In w (lazy_star c s) -> s = word w ++ rest w.
Proof.
  revert w. induction s as [|a s IH]; intros w; cbn.
  - intros [<-|[]]. reflexivity.
  - intros [<-|H]; [reflexivity|].
    destruct (accepts c a); [|contradiction].
    apply in_map_iff in H. destruct H as (w' & <- & H). cbn.
    f_equal. now apply IH.
Qed.

(** Every way of matching consumes a prefix of the subject. *)
Lemma ways_sound (r : re) : forall s w,
  In w (ways r s) -> s = word w ++ rest w.
Proof.
  induction r as [c|r IH|c|r1 IH1 r2 IH2|r1 IH1 r2 IH2|i r IH];
    intros s w; cbn [ways].
  - destruct s as [|a s]; [contradiction|].
    destruct (accepts c a); [|contradiction]. now intros [<-|[]].
  - intros H. apply in_app_iff in H. destruct H as [H|[<-|[]]]; auto.
  - apply lazy_star_sound.
  - intros H. apply in_flat_map in H. destruct H as (w1 & H1 & H).
    apply in_map_iff in H. destruct H as (w2 & <- & H2). cbn.
    rewrite append_assoc, <- (IH2 _ _ H2). now apply IH1.
  - intros H. apply in_app_iff in H. destruct H; auto.
  - intros H. apply in_map_iff in H. destruct H as (w' & <- & H). cbn.
    now apply IH.
Qed.

Lemma ways_cat (r1 r2 : re) (s : string) (w : way) :
  In w (ways (Cat r1 r2) s) ->
  exists w1 w2, In w1 (ways r1 s) /\ In w2 (ways r2 (rest w1))
                /\ word w = word w1 ++ word w2 /\ rest w = rest w2.
Proof.
  cbn [ways]. intros H. apply in_flat_map in H. destruct H as (w1 & H1 & H).
  apply in_map_iff in H. destruct H as (w2 & <- & H2). cbn. eauto 6.
Qed.

Lemma ways_grp (i : nat) (r : re) (s : string) (w : way) :
  In w (ways (Grp i r) s) ->
  exists w', In w' (ways r s) /\ word w = word w' /\ rest w = rest w'.
Proof.
  cbn [ways]. intros H. apply in_map_iff in H.
  destruct H as (w' & <- & H). cbn. eauto.
Qed.

Lemma ways_chr (c : ascii) (s : string) (w : way) :
  In w (ways (Sym (Chr c)) s) -> word w = String c "".
Proof.
  cbn. destruct s as [|a s]; [contradiction|].
  destruct (Ascii.eqb_spec a c) as [->|]; [|contradiction].
  now intros [<-|[]].
Qed.

(** A literal matches only itself. *)
Lemma ways_lit (t : string) : forall s w,
  In w (ways (lit t) s) -> word w = t.
Proof.
  induction t as [|c t IH]; intros s w.
  - cbn. destruct s; cbn; now intros [<-|[]].
  - destruct t as [|c' t].
    + apply ways_chr.
    + change (lit (String c (String c' t)))
        with (Cat (Sym (Chr c)) (lit (String c' t))).
      intros H. apply ways_cat in H.
      destruct H as (w1 & w2 & H1 & H2 & -> & _).
      apply ways_chr in H1. apply IH in H2. now rewrite H1, H2.
Qed.

(** What the trigger pattern matches ends with an acknowledgment. *)
Lemma ways_ptn (s : string) (w : way) :
  In w (ways ptn s) ->
  exists pre tok, word w = pre ++ tok
                  /\ (tok = "thanks" \/ tok = "thank you").
Proof.
  unfold ptn. intros H.
  apply ways_cat in H. destruct H as (w1 & w23 & _ & H & -> & _).
  apply ways_cat in H. destruct H as (w2 & w3 & _ & H & -> & _).
  apply ways_grp in H. destruct H as (w3' & H & -> & _).
  apply ways_cat in H. destruct H as (wa & wb & Ha & Hb & -> & _).
  apply ways_lit in Ha. cbn [ways] in Hb. apply in_app_iff in Hb.
  exists (word w1 ++ word w2), (word wa ++ word wb).
  rewrite append_assoc. split; [reflexivity|]. rewrite Ha.
  destruct Hb as [Hb|Hb].
  - apply ways_chr in Hb. rewrite Hb. now left.
  - apply (ways_lit " you") in Hb. rewrite Hb. now right.
Qed.

Lemma search_from_sound (r : re) (s : string) : forall pos m,
  search_from r pos s = Some m ->
  exists pre w, In w (ways r (word w ++ rest w)) /\ matched m = word w
                /\ s = pre ++ word w ++ rest w.
Proof.
  assert (Hhere : forall s' w ws pos,
             ways r s' = w :: ws ->
             exists pre w0,
               In w0 (ways r (word w0 ++ rest w0))
               /\ matched (Match pos (word w) (caps w)) = word w0
               /\ s' = pre ++ word w0 ++ rest w0).
  { intros s' w ws pos E. exists "", w.
    assert (Hs : s' = word w ++ rest w)
      by (apply ways_sound with (r := r); rewrite E; now left).
    rewrite <- Hs, E. split; [now left | split; reflexivity]. }
  induction s as [|a s IH]; intros pos m; cbn [search_from].
  - destruct (ways r "") as [|w ws] eqn:E; [discriminate|].
    intros [= <-]. eapply Hhere, E.
  - destruct (ways r (String a s)) as [|w ws] eqn:E.
    + intros H. apply IH in H. destruct H as (pre & w & Hw & Hm & Hs).
      exists (String a pre), w. cbn. now rewrite <- Hs.
    + intros [= <-]. eapply Hhere, E.
Qed.

(** The trigger pattern is found only in a text that holds an
    acknowledgment. *)
Lemma search_ptn_ack (s : string) (m : match_) :
  search ptn s = Some m ->
  Str.contains "thanks" s = true \/ Str.contains "thank you" s = true.
Proof.
  intros H. apply search_from_sound in H.
  destruct H as (pre & w & Hw & _ & ->).
  apply ways_ptn in Hw. destruct Hw as (mid & tok & E & Htok).
  assert (Hc : Str.contains tok (pre ++ word w ++ rest w) = true).
  { rewrite E, (append_assoc mid), <- (append_assoc pre).
    apply contains_middle. }
  destruct Htok as [<- | <-]; auto.
Qed.

End MatcherFacts.

(* ===================================================================== *)
(** ** Command extraction (lines 228-234 and [get_cmd]) *)
(* ===================================================================== *)

Lemma feed_no_ack (acc text : string) :
  has_ack (Str.lower (acc ++ text ++ " ")) = false ->
  feed acc text = ([], acc ++ text ++ " ").
Proof.
  intros H. destruct (feed_cases acc text) as [[E _] | (cmd & m & _ & E)];
    [exact E|].
  apply search_ptn_ack in E. unfold has_ack in H.
  apply orb_false_iff in H. destruct H, E; congruence.
Qed.

Lemma has_ack_app_l (a b : string) :
  has_ack (a ++ b) = false -> has_ack a = false.
Proof.
  unfold has_ack. intros H. apply orb_false_iff in H. destruct H as [H1 H2].
  apply orb_false_iff. split.
  - destruct (Str.contains "thanks" a) eqn:E; [|reflexivity].
    now rewrite (contains_app_l _ _ b E) in H1.
  - destruct (Str.contains "thank you" a) eqn:E; [|reflexivity].
    now rewrite (contains_app_l _ _ b E) in H2.
Qed.

Lemma has_ack_space (s : string) :
  has_ack s = false -> has_ack (s ++ " ") = false.
Proof.
  unfold has_ack. intros H. apply orb_false_iff in H. destruct H as [H1 H2].
  apply orb_false_iff. split; apply contains_snoc; auto; discriminate.
Qed.

(** C7: fed "hey hanna, please open the door, thanks", the extractor
    prints the payload "please open the door" and clears its accumulator;
    fed a text without "thanks" and "thank you" (in any letter case) it
    prints nothing and the accumulator grows by the text and a space, from
    the empty accumulator and from any accumulator that, with the text,
    still holds no acknowledgment, however many such texts are fed. *)
Theorem C7_command_extraction :
  feed "" "hey hanna, please open the door, thanks"
  = ([PrintUserSays (Some "please open the door")], "") /\
  get_cmd "hey hanna, please open the door, thanks" ptn
  = Some "please open the door" /\
  (forall text,
      has_ack (Str.lower text) = false ->
      feed "" text = ([], text ++ " ")) /\
  (forall acc text,
      has_ack (Str.lower (acc ++ text ++ " ")) = false ->
      feed acc text = ([], acc ++ text ++ " ")) /\
  (forall texts acc,
      has_ack (Str.lower (acc ++ spaced texts)) = false ->
      feed_all acc texts = ([], acc ++ spaced texts)).
Proof.
  split; [reflexivity | split; [reflexivity | split; [|split]]].
  - intros text H. apply (feed_no_ack "" text). cbn [append].
    rewrite lower_app. now apply has_ack_space.
  - exact feed_no_ack.
  - induction texts as [|text more IH]; intros acc H; cbn [feed_all spaced].
    + now rewrite append_nil_r.
    + cbn [spaced] in H.
      assert (E : acc ++ text ++ " " ++ spaced more
                  = (acc ++ text ++ " ") ++ spaced more).
      { now rewrite !append_assoc. }
      rewrite E in H. rewrite feed_no_ack.
      * rewrite (IH _ H), E. reflexivity.
      * rewrite lower_app in H. now apply has_ack_app_l in H.
Qed.

(** C7 on texts without an acknowledgment. *)
Lemma C7_witness :
  feed "" "Hey Hanna, please open the door"
  = ([], "Hey Hanna, please open the door ")
  /\ feed "hanna thank " "me later" = ([], "hanna thank me later ")
  /\ feed_all "" ["hey hanna"; "open"; "the door"]
     = ([], "hey hanna open the door ").
Proof.
  destruct C7_command_extraction as (_ & _ & H1 & H2 & H3).
  split; [|split].
  - exact (H1 "Hey Hanna, please open the door" eq_refl).
  - exact (H2 "hanna thank " "me later" eq_refl).
  - exact (H3 ["hey hanna"; "open"; "the door"] "" eq_refl).
Defined.

Lemma loop_body_transcript phrase_timeout audio_model st now queue tr st' r :
  loop_body phrase_timeout audio_model st now queue = (tr, st', r) ->
  (commands tr = [] /\ exists more, transcript st' = transcript st ++ more)
  \/ (exists cmd, commands tr = [cmd] /\ transcript st' = "").
Proof.
  assert (Hsame : forall tr0 : list action,
             commands tr0 = [] ->
             commands tr0 = []
             /\ exists more, transcript st = transcript st ++ more).
  { intros tr0 H. split; [exact H|]. exists "". now rewrite append_nil_r. }
  unfold loop_body. destruct queue as [|c q].
  { intros [= <- <- <-]. left. now apply Hsame. }
  cbn [segment transcription transcript phrase_time].
  destruct (Audio.decode _) as [audio|].
  2:{ intros [= <- <- <-]. left. now apply Hsame. }
  destruct audio_model as [model|].
  2:{ intros [= <- <- <-]. left. now apply Hsame. }
  destruct (model audio) as [raw|e].
  2:{ intros [= <- <- <-]. left. now apply Hsame. }
  destruct (commit _ _ _) as [lines|e].
  2:{ intros [= <- <- <-]. left. now apply Hsame. }
  destruct (feed_cases (transcript st) (Str.strip raw))
    as [[E _] | (cmd & m & E & _)]; rewrite E; intros [= <- <- <-].
  - left. split; [reflexivity|]. cbn. eauto.
  - right. exists cmd. split; reflexivity.
Qed.

(** C8: a feed either finds the trigger pattern, prints one command and
    leaves the accumulator empty, or finds nothing and leaves the
    accumulator extended by the text and a space; an iteration of the loop
    either prints one command and leaves the accumulator empty, or prints
    none and leaves an accumulator that extends the one it found; and
    after a feed that matched, the later feeds behave as from an empty
    accumulator, whatever was accumulated before. *)
Theorem C8_accumulator_reset :
  (forall acc text,
      (feed acc text = ([], acc ++ text ++ " ")
       /\ search ptn (Str.lower (acc ++ text ++ " ")) = None)
      \/ (exists cmd m,
             feed acc text = ([PrintUserSays cmd], "")
             /\ search ptn (Str.lower (acc ++ text ++ " ")) = Some m)) /\
  (forall phrase_timeout audio_model st now queue tr st' r,
      loop_body phrase_timeout audio_model st now queue = (tr, st', r) ->
      (commands tr = [] /\ exists more, transcript st' = transcript st ++ more)
      \/ (exists cmd, commands tr = [cmd] /\ transcript st' = "")) /\
  (forall acc text cmd more,
      fst (feed acc text) = [PrintUserSays cmd] ->
      snd (feed acc text) = ""
      /\ feed_all acc (text :: more)
         = (PrintUserSays cmd :: fst (feed_all "" more),
            snd (feed_all "" more))).
Proof.
  split; [exact feed_cases | split; [exact loop_body_transcript|]].
  intros acc text cmd more H. cbn [feed_all].
  destruct (feed_cases acc text) as [[E _] | (cmd' & m & E & _)];
    rewrite E in H |- *; [discriminate H|].
  injection H as ->. split; [reflexivity|].
  now destruct (feed_all "" more).
Qed.

(** C8 on a session of two commands: the second payload holds nothing of
    the text before the first acknowledgment. *)
Lemma C8_witness :
  (commands (fst (fst (loop_body four_seconds
                                 (Some (fun _ => Ok "hanna lights on thanks"))
                                 (State None [""] "so ") 0 [chunk1])))
   = [Some "lights on"])
  /\ feed_all "so " ["hanna lights on thanks"; "door"; "thank you"; "hanna off thanks"]
     = ([PrintUserSays (Some "lights on"); PrintUserSays (Some "off")], "").
Proof.
  destruct C8_accumulator_reset as (_ & Hl & Hf).
  split.
  - destruct (Hl four_seconds (Some (fun _ => Ok "hanna lights on thanks"))
                 (State None [""] "so ") 0 [chunk1] _ _ _ eq_refl)
      as [[H _] | (cmd & H & _)]; [discriminate H | reflexivity].
  - exact (proj2 (Hf "so " "hanna lights on thanks" (Some "lights on")
                     ["door"; "thank you"; "hanna off thanks"] eq_refl)).
Defined.

(** C10: fed "i ate a banana thanks", a text without "hanna", "hana" or
    "anna", the pattern is found all the same: the wake group takes the
    "ana" at index 9, inside the word "banana" at indices 8 to 13, and the
    command "na" is printed; so it is when the recogniser returns the
    sentence with capitals and punctuation. *)
Theorem C10_wake_token_inside_word :
  search ptn (Str.lower ("i ate a banana thanks" ++ " "))
  = Some (Match 9 "anana thanks"
                [(1%nat, "ana"); (2%nat, "na "); (3%nat, "thanks")]) /\
  substring 8 6 "i ate a banana thanks" = "banana" /\
  Str.contains "hanna" "i ate a banana thanks" = false /\
  Str.contains "hana" "i ate a banana thanks" = false /\
  Str.contains "anna" "i ate a banana thanks" = false /\
  feed "" "i ate a banana thanks" = ([PrintUserSays (Some "na")], "") /\
  commands (fst (engine_loop four_seconds
                             (Some (fun _ => Ok "I ate a banana. Thanks!"))
                             init [Poll 0 [chunk1]]))
  = [Some "na"].
Proof. repeat split. Qed.

(* ===================================================================== *)
(** ** Audio decode (lines 213-216) *)
(* ===================================================================== *)

Lemma all_sized_spec (bits : nat) : forall f,
  all_sized bits f = true ->
  forall p, (Pos.size_nat p <= bits)%nat -> f p = true.
Proof.
  induction bits as [|b IH]; intros f H p Hp.
  - destruct p; cbn in Hp; lia.
  - cbn [all_sized] in H. apply andb_true_iff in H. destruct H as [H1 H].
    destruct p as [p|p|]; cbn in Hp; [| |exact H1];
      apply le_S_n in Hp; apply (IH _ H p) in Hp;
      apply andb_true_iff in Hp; apply Hp.
Qed.

Lemma size_nat_bound (p : positive) : forall n,
  Zpos p < 2 ^ Z.of_nat n -> (Pos.size_nat p <= n)%nat.
Proof.
  induction p as [p IH|p IH|]; intros [|n] H; cbn [Pos.size_nat];
    try (cbn in H; lia);
    rewrite Nat2Z.inj_succ, Z.pow_succ_r in H by lia;
    try (apply le_n_S, IH; lia).
Qed.

Lemma exact_at_sized :
  all_sized 15 (fun p => exact_at (Zpos p) && exact_at (Zneg p)) = true.
Proof. vm_cast_no_check (eq_refl true). Qed.

Lemma exact_at_int16 (sample : Z) :
  -32768 <= sample <= 32767 -> exact_at sample = true.
Proof.
  intros H.
  assert (Hp : forall p, Zpos p < 32768 ->
                         exact_at (Zpos p) = true /\ exact_at (Zneg p) = true).
  { intros p Hlt. apply (size_nat_bound p 15) in Hlt.
    apply (proj1 (andb_true_iff _ _)).
    exact (all_sized_spec 15 _ exact_at_sized p Hlt). }
  destruct sample as [|p|p]; [reflexivity | apply Hp; lia |].
  destruct (Z.eq_dec (Zneg p) (-32768)) as [->|Hne]; [reflexivity|].
  apply Hp. lia.
Qed.

Lemma int16_range (lo hi : byte) :
  -32768 <= Audio.int16 lo hi <= 32767
  /\ (Audio.int16 lo hi) mod 65536
     = Z.of_N (Byte.to_N lo) + 256 * Z.of_N (Byte.to_N hi).
Proof.
  unfold Audio.int16.
  pose proof (Byte.to_N_bounded lo). pose proof (Byte.to_N_bounded hi).
  set (u := Z.of_N (Byte.to_N lo) + 256 * Z.of_N (Byte.to_N hi)).
  assert (0 <= u < 65536) by (subst u; lia).
  destruct (Z.ltb_spec u 32768); split; try lia.
  - now apply Z.mod_small.
  - replace (u - 65536) with (u + (-1) * 65536) by lia.
    rewrite Z.mod_add by lia. now apply Z.mod_small.
Qed.

Lemma frombuffer_even (n : nat) : forall audio_data,
  List.length audio_data = (2 * n)%nat ->
  exists samples, Audio.frombuffer audio_data = Some samples
                  /\ List.length samples = n.
Proof.
  induction n as [|n IH]; intros [|lo [|hi more]] H; cbn in H; try lia.
  - now exists [].
  - destruct (IH more) as (samples & E & L); [lia|].
    cbn [Audio.frombuffer]. rewrite E. cbn. eexists. split; [reflexivity|].
    cbn. now rewrite L.
Qed.

Lemma frombuffer_odd (n : nat) : forall audio_data,
  List.length audio_data = S (2 * n) ->
  Audio.frombuffer audio_data = None.
Proof.
  induction n as [|n IH]; intros [|lo [|hi more]] H; cbn in H; try lia.
  - reflexivity.
  - cbn [Audio.frombuffer]. rewrite (IH more); [reflexivity | lia].
Qed.

(** The sample [np.frombuffer] reads at position [i] is the [int16] of
    bytes [2 i] and [2 i + 1]. *)
Lemma frombuffer_nth (n : nat) : forall audio_data samples,
  (List.length audio_data <= n)%nat ->
  Audio.frombuffer audio_data = Some samples ->
  forall i lo hi,
    nth_error audio_data (2 * i) = Some lo ->
    nth_error audio_data (2 * i + 1) = Some hi ->
    nth_error samples i = Some (Audio.int16 lo hi).
Proof.
  induction n as [|n IH]; intros [|l [|h more]] samples Hn; cbn in Hn;
    try lia; cbn [Audio.frombuffer]; try discriminate;
    try (intros _ [|i] lo hi; discriminate).
  destruct (Audio.frombuffer more) as [tl|] eqn:E; [|discriminate].
  intros [= <-] [|i] lo hi.
  - cbn. now intros [= <-] [= <-].
  - replace (2 * S i)%nat with (S (S (2 * i))) by lia.
    replace (S (S (2 * i)) + 1)%nat with (S (S (2 * i + 1))) by lia.
    cbn [nth_error]. apply (IH more tl); [lia | exact E].
Qed.

(** C9: the float32 at position [i] of the decoded audio stands for
    exactly [v / 32768], where [v] is the signed 16-bit number whose low
    byte is byte [2 i] of the buffer and whose high byte is byte
    [2 i + 1]: the one [v] between -32768 and 32767 that is
    [lo + 256 hi] modulo 65536; it is a well-formed binary32 value, and
    there is one for every two bytes.  The audio the loop hands to the
    recogniser is that of the bytes drained and of nothing else: drains
    of the same bytes, at any times and in any states, hand over the same
    float32 values.  Also: [int16] is that number [v], and for every
    sample the division is exact. *)
Theorem C9_decode_exact :
  (forall audio_data n,
      List.length audio_data = (2 * n)%nat ->
      exists audio_np,
        Audio.decode audio_data = Some audio_np
        /\ List.length audio_np = n
        /\ forall i lo hi,
             nth_error audio_data (2 * i) = Some lo ->
             nth_error audio_data (2 * i + 1) = Some hi ->
             exists x v q,
               nth_error audio_np i = Some x
               /\ -32768 <= v <= 32767
               /\ v mod 65536
                  = Z.of_N (Byte.to_N lo) + 256 * Z.of_N (Byte.to_N hi)
               /\ valid_binary Audio.prec Audio.emax x = true
               /\ Audio.to_Q x = Some q
               /\ (q == v # 32768)%Q) /\
  (forall phrase_timeout audio_model st1 st2 now1 now2 c1 q1 c2 q2,
      List.concat (c1 :: q1) = List.concat (c2 :: q2) ->
      transcribed
        (fst (fst (loop_body phrase_timeout audio_model st1 now1 (c1 :: q1))))
      = transcribed
          (fst (fst (loop_body phrase_timeout audio_model st2 now2
                               (c2 :: q2))))) /\
  (forall lo hi,
      -32768 <= Audio.int16 lo hi <= 32767
      /\ (Audio.int16 lo hi) mod 65536
         = Z.of_N (Byte.to_N lo) + 256 * Z.of_N (Byte.to_N hi)) /\
  (forall sample,
      -32768 <= sample <= 32767 ->
      valid_binary Audio.prec Audio.emax (Audio.normalize sample) = true
      /\ exists q, Audio.to_Q (Audio.normalize sample) = Some q
                   /\ (q == sample # 32768)%Q).
Proof.
  assert (Hsample : forall sample,
             -32768 <= sample <= 32767 ->
             valid_binary Audio.prec Audio.emax (Audio.normalize sample) = true
             /\ exists q, Audio.to_Q (Audio.normalize sample) = Some q
                          /\ (q == sample # 32768)%Q).
  { intros sample H. apply exact_at_int16 in H. unfold exact_at in H.
    apply andb_true_iff in H. destruct H as [Hv Hq]. split; [exact Hv|].
    destruct (Audio.to_Q (Audio.normalize sample)) as [q|]; [|discriminate].
    exists q. split; [reflexivity | now apply Qeq_bool_eq]. }
  split; [|split; [|split; [exact int16_range | exact Hsample]]].
  - intros audio_data n H.
    destruct (frombuffer_even n audio_data H) as (samples & E & L).
    exists (map Audio.normalize samples). unfold Audio.decode. rewrite E.
    split; [reflexivity | split; [now rewrite length_map|]].
    intros i lo hi Hlo Hhi.
    pose proof (frombuffer_nth _ audio_data samples (le_n _) E i lo hi Hlo Hhi)
      as Hi.
    destruct (int16_range lo hi) as [Hr Hmod].
    destruct (Hsample _ Hr) as (Hv & q & Hq & Heq).
    exists (Audio.normalize (Audio.int16 lo hi)), (Audio.int16 lo hi), q.
    split; [now apply map_nth_error | auto].
  - intros t am st1 st2 now1 now2 c1 q1 c2 q2 E.
    destruct (loop_body t am st1 now1 (c1 :: q1)) as [[tr1 s1] r1] eqn:E1.
    destruct (loop_body t am st2 now2 (c2 :: q2)) as [[tr2 s2] r2] eqn:E2.
    apply loop_body_drain in E1, E2.
    destruct E1 as (_ & _ & _ & H1), E2 as (_ & _ & _ & H2).
    rewrite E in H1. cbn [fst].
    destruct (Audio.decode (List.concat (c2 :: q2))) as [audio|].
    + destruct am; [congruence|]. destruct H1, H2. congruence.
    + destruct H1, H2. congruence.
Qed.

(** C9 on the buffer of the samples 12345 and -32768, and on two drains
    of the same bytes chunked differently, five seconds apart. *)
Lemma C9_witness :
  (exists audio_np,
      Audio.decode [x39; x30; x00; x80] = Some audio_np
      /\ List.length audio_np = 2%nat
      /\ (exists x v q,
             nth_error audio_np 1 = Some x
             /\ -32768 <= v <= 32767
             /\ v mod 65536
                = Z.of_N (Byte.to_N x00) + 256 * Z.of_N (Byte.to_N x80)
             /\ valid_binary Audio.prec Audio.emax x = true
             /\ Audio.to_Q x = Some q
             /\ (q == v # 32768)%Q))
  /\ transcribed
       (fst (fst (loop_body four_seconds (Some (fun _ => Ok "x")) init 0
                            [chunk1; chunk2])))
     = transcribed
         (fst (fst (loop_body four_seconds (Some (fun _ => Ok "x"))
                              (State (Some 0) ["a"; "b"] "b ") 5000000
                              [[x01; x00; x02]; [x00]])))
  /\ (exists q, Audio.to_Q (Audio.normalize (-32768)) = Some q
                /\ (q == (-32768) # 32768)%Q).
Proof.
  destruct C9_decode_exact as (Hb & Hd & _ & Hs).
  split; [|split].
  - destruct (Hb [x39; x30; x00; x80] 2%nat eq_refl) as (audio & E & L & H).
    exists audio. split; [exact E | split; [exact L|]].
    exact (H 1%nat x00 x80 eq_refl eq_refl).
  - exact (Hd four_seconds (Some (fun _ => Ok "x")) init
              (State (Some 0) ["a"; "b"] "b ") 0 5000000
              chunk1 [chunk2] [x01; x00; x02] [[x00]] eq_refl).
  - apply (Hs (-32768)). lia.
Defined.

(* ===================================================================== *)
(** ** The language of the trigger pattern *)
(* ===================================================================== *)

Section PatternFacts.

Lemma all_chars_app (p : ascii -> bool) (a b : string) :
  all_chars p (a ++ b) = all_chars p a && all_chars p b.
Proof.
  induction a as [|x a IH]; cbn; [reflexivity|].
  now rewrite IH, andb_assoc.
Qed.

Lemma lazy_star_caps (c : cls) (s : string) (w : way) :
  In w (lazy_star c s) -> caps w = [] /\ all_chars (accepts c) (word w) = true.
Proof.
  revert w. induction s as [|a s IH]; intros w; cbn.
  - intros [<-|[]]. now split.
  - intros [<-|H]; [now split|].
    destruct (accepts c a) eqn:E; [|contradiction].
    apply in_map_iff in H. destruct H as (w' & <- & H). cbn.
    destruct (IH _ H) as [-> ->]. now rewrite E.
Qed.

Lemma lazy_star_complete (c : cls) (mid tl : string) :
  all_chars (accepts c) mid = true ->
  In (Way mid [] tl) (lazy_star c (mid ++ tl)).
Proof.
  induction mid as [|a mid IH]; cbn.
  - intros _. destruct tl; now left.
  - intros H. apply andb_true_iff in H. destruct H as [-> H]. right.
    apply in_map_iff. exists (Way mid [] tl). split; [reflexivity | auto].
Qed.

(** A pattern without groups captures nothing. *)
Lemma ways_groupless (r : re) : forall s w,
  groupless r = true -> In w (ways r s) -> caps w = [].
Proof.
  induction r as [c|r IH|c|r1 IH1 r2 IH2|r1 IH1 r2 IH2|i r IH];
    intros s w G; cbn [ways groupless] in *.
  - destruct s as [|a s]; [contradiction|].
    destruct (accepts c a); [|contradiction]. now intros [<-|[]].
  - intros H. apply in_app_iff in H. destruct H as [H|[<-|[]]]; eauto.
  - intros H. now apply lazy_star_caps in H.
  - apply andb_true_iff in G. destruct G as [G1 G2].
    intros H. apply in_flat_map in H. destruct H as (w1 & H1 & H).
    apply in_map_iff in H. destruct H as (w2 & <- & H2). cbn.
    now rewrite (IH1 _ _ G1 H1), (IH2 _ _ G2 H2).
  - apply andb_true_iff in G. destruct G as [G1 G2].
    intros H. apply in_app_iff in H. destruct H; eauto.
  - discriminate.
Qed.

Lemma ptn_groups :
  ptn = Cat (Grp 1 wake_re) (Cat (Grp 2 (LazyStar Dot)) (Grp 3 ack_re)).
Proof. reflexivity. Qed.

Lemma ways_cat_full (r1 r2 : re) (s : string) (w : way) :
  In w (ways (Cat r1 r2) s) <->
  exists w1 w2, In w1 (ways r1 s) /\ In w2 (ways r2 (rest w1))
                /\ w = Way (word w1 ++ word w2) (caps w1 ++ caps w2) (rest w2).
Proof.
  cbn [ways]. rewrite in_flat_map. split.
  - intros (w1 & H1 & H). apply in_map_iff in H.
    destruct H as (w2 & <- & H2). eauto.
  - intros (w1 & w2 & H1 & H2 & ->). exists w1. split; [exact H1|].
    apply in_map_iff. eauto.
Qed.

Lemma ways_grp_full (i : nat) (r : re) (s : string) (w : way) :
  In w (ways (Grp i r) s) <->
  exists w', In w' (ways r s)
             /\ w = Way (word w') ((i, word w') :: caps w') (rest w').
Proof.
  cbn [ways]. rewrite in_map_iff. split; intros (w' & H1 & H2); eauto.
Qed.

Lemma ways_opt_chr (c : ascii) (s : string) (w : way) :
  In w (ways (Opt (Sym (Set1 [c]))) s) ->
  word w = "" \/ word w = String c "".
Proof.
  cbn. destruct s as [|a s]; cbn.
  - intros [<-|[]]. now left.
  - rewrite orb_false_r. destruct (Ascii.eqb_spec a c) as [->|]; cbn.
    + intros [<-|[<-|[]]]; [now right | now left].
    + intros [<-|[]]. now left.
Qed.

(** What the first group matches. *)
Lemma ways_wake (s : string) (w : way) :
  In w (ways wake_re s) -> In (word w) wake_forms /\ caps w = [].
Proof.
  intros H. split; [|now apply (ways_groupless wake_re s)].
  unfold wake_re in H.
  apply ways_cat in H. destruct H as (wh & w1 & Hh & H & -> & _).
  apply ways_cat in H. destruct H as (wan & w2 & Han & H & -> & _).
  apply ways_cat in H. destruct H as (wn & wa & Hn & Ha & -> & _).
  apply ways_opt_chr in Hh. apply ways_opt_chr in Hn.
  apply ways_lit in Han. apply ways_chr in Ha. rewrite Han, Ha.
  destruct Hh as [-> | ->], Hn as [-> | ->]; cbn; auto.
Qed.

(** What the third group matches. *)
Lemma ways_ack (s : string) (w : way) :
  In w (ways ack_re s) -> In (word w) ack_forms /\ caps w = [].
Proof.
  intros H. split; [|now apply (ways_groupless ack_re s)].
  unfold ack_re in H.
  apply ways_cat in H. destruct H as (wa & wb & Ha & Hb & -> & _).
  apply ways_lit in Ha. cbn [ways] in Hb. apply in_app_iff in Hb.
  rewrite Ha. destruct Hb as [Hb|Hb].
  - apply ways_chr in Hb. rewrite Hb. now left.
  - apply (ways_lit " you") in Hb. rewrite Hb. right. now left.
Qed.

(** Every way of matching the pattern: a wake form, a text without line
    break and an acknowledgment, captured as groups 1, 2 and 3. *)
Lemma ways_ptn_shape (s : string) (w : way) :
  In w (ways ptn s) ->
  exists g1 g2 g3,
    w = Way (g1 ++ g2 ++ g3) [(1%nat, g1); (2%nat, g2); (3%nat, g3)] (rest w)
    /\ s = g1 ++ g2 ++ g3 ++ rest w
    /\ In g1 wake_forms /\ no_newline g2 = true /\ In g3 ack_forms.
Proof.
  intros H. pose proof (ways_sound _ _ _ H) as Hs. rewrite ptn_groups in H.
  apply ways_cat_full in H. destruct H as (w1 & w23 & H1 & H23 & ->).
  apply ways_cat_full in H23. destruct H23 as (w2 & w3 & H2 & H3 & ->).
  apply ways_grp_full in H1. destruct H1 as (v1 & H1 & ->).
  apply ways_grp_full in H2. destruct H2 as (v2 & H2 & ->).
  apply ways_grp_full in H3. destruct H3 as (v3 & H3 & ->).
  cbn [word caps rest] in *.
  apply ways_wake in H1. destruct H1 as [F1 C1].
  apply ways_ack in H3. destruct H3 as [F3 C3].
  cbn [ways] in H2. apply lazy_star_caps in H2. destruct H2 as [C2 N2].
  exists (word v1), (word v2), (word v3). rewrite C1, C2, C3. cbn [app].
  repeat split; auto. now rewrite Hs, !append_assoc.
Qed.

Lemma ways_wake_complete (g1 tl : string) :
  In g1 wake_forms -> In (Way g1 [] tl) (ways wake_re (g1 ++ tl)).
Proof. intros [<- | [<- | [<- | [<- | []]]]]; cbn; auto. Qed.

Lemma ways_ack_complete (g3 tl : string) :
  In g3 ack_forms -> In (Way g3 [] tl) (ways ack_re (g3 ++ tl)).
Proof. intros [<- | [<- | []]]; cbn; auto. Qed.

(** A wake form without its optional [h], a text without line break and
    an acknowledgment are matched by the pattern. *)
Lemma ways_ptn_complete (g1 g2 g3 tl : string) :
  In g1 wake_forms -> no_newline g2 = true -> In g3 ack_forms ->
  In (Way (g1 ++ g2 ++ g3) [(1%nat, g1); (2%nat, g2); (3%nat, g3)] tl)
     (ways ptn (g1 ++ g2 ++ g3 ++ tl)).
Proof.
  intros H1 H2 H3. rewrite ptn_groups.
  apply ways_cat_full.
  exists (Way g1 [(1%nat, g1)] (g2 ++ g3 ++ tl)),
         (Way (g2 ++ g3) [(2%nat, g2); (3%nat, g3)] tl).
  split; [|split; [|reflexivity]].
  - apply ways_grp_full. exists (Way g1 [] (g2 ++ g3 ++ tl)).
    split; [now apply ways_wake_complete | reflexivity].
  - cbn [rest]. apply ways_cat_full.
    exists (Way g2 [(2%nat, g2)] (g3 ++ tl)), (Way g3 [(3%nat, g3)] tl).
    split; [|split; [|reflexivity]].
    + apply ways_grp_full. exists (Way g2 [] (g3 ++ tl)).
      split; [now apply lazy_star_complete | reflexivity].
    + apply ways_grp_full. exists (Way g3 [] tl).
      split; [now apply ways_ack_complete | reflexivity].
Qed.

(** Where [search] finds its match: at the first position that has a
    way, with the first of the ways there. *)
Lemma search_from_first (r : re) (s : string) : forall pos m,
  search_from r pos s = Some m ->
  exists pre w,
    s = pre ++ word w ++ rest w
    /\ hd_error (ways r (word w ++ rest w)) = Some w
    /\ m = Match (pos + String.length pre) (word w) (caps w)
    /\ forall p q, pre = p ++ q -> q <> "" ->
                   ways r (q ++ word w ++ rest w) = [].
Proof.
  assert (Hhere : forall s' w ws pos,
             ways r s' = w :: ws ->
             exists pre w0,
               s' = pre ++ word w0 ++ rest w0
               /\ hd_error (ways r (word w0 ++ rest w0)) = Some w0
               /\ Match pos (word w) (caps w)
                  = Match (pos + String.length pre) (word w0) (caps w0)
               /\ forall p q, pre = p ++ q -> q <> "" ->
                              ways r (q ++ word w0 ++ rest w0) = []).
  { intros s' w ws pos E. exists "", w.
    assert (Hs : s' = word w ++ rest w)
      by (apply ways_sound with (r := r); rewrite E; now left).
    rewrite <- Hs, E. cbn. rewrite Nat.add_0_r.
    repeat split; auto. intros [|] q; [|discriminate].
    cbn. intros <- H. now contradiction H. }
  induction s as [|a s IH]; intros pos m; cbn [search_from].
  - destruct (ways r "") as [|w ws] eqn:E; [discriminate|].
    intros [= <-]. eapply Hhere, E.
  - destruct (ways r (String a s)) as [|w ws] eqn:E.
    + intros H. apply IH in H.
      destruct H as (pre & w & Hs & Hw & -> & Hleft).
      exists (String a pre), w. cbn [append String.length].
      rewrite <- Hs, Nat.add_succ_r. repeat split; auto.
      intros [|b p] q; cbn.
      * intros <- _. cbn. now rewrite <- Hs.
      * intros [= _ ->] Hq. now apply (Hleft p q).
    + intros [= <-]. eapply Hhere, E.
Qed.

Lemma search_from_complete (r : re) (pre suf : string) : forall pos,
  ways r suf <> [] -> exists m, search_from r pos (pre ++ suf) = Some m.
Proof.
  assert (Hhere : forall pos, ways r suf <> [] ->
                              exists m, search_from r pos suf = Some m).
  { intros pos H. destruct suf; cbn; destruct (ways r _); eauto;
      now contradiction H. }
  induction pre as [|a pre IH]; intros pos H; [now apply Hhere|].
  cbn [append search_from]. destruct (ways r (String a (pre ++ suf))); eauto.
Qed.

Lemma prefix_split (t s : string) :
  prefix t s = true -> exists q, s = t ++ q.
Proof.
  revert s. induction t as [|x t IH]; intros s; [now exists s|].
  destruct s as [|y s]; cbn; [discriminate|].
  destruct (ascii_dec x y) as [->|]; [|discriminate].
  intros H. destruct (IH s H) as [q ->]. now exists q.
Qed.

Lemma contains_split (t s : string) :
  Str.contains t s = true -> exists p q, s = p ++ t ++ q.
Proof.
  induction s as [|y s IH]; cbn [Str.contains].
  - rewrite orb_false_r. intros H. apply prefix_split in H.
    destruct H as [q H]. now exists "", q.
  - intros H. apply orb_true_iff in H. destruct H as [H|H].
    + apply prefix_split in H. destruct H as [q H]. now exists "", q.
    + destruct (IH H) as (p & q & ->). now exists (String y p), q.
Qed.

Lemma hd_error_flat_map {A B : Type} (f : A -> list B) (l : list A) (y : B) :
  hd_error (flat_map f l) = Some y ->
  exists l1 x l2, l = (l1 ++ x :: l2)%list
                  /\ (forall z, In z l1 -> f z = [])
                  /\ hd_error (f x) = Some y.
Proof.
  induction l as [|a l IH]; cbn; [discriminate|].
  destruct (f a) as [|b bs] eqn:E; cbn.
  - intros H. destruct (IH H) as (l1 & x & l2 & -> & Hn & Hx).
    exists (a :: l1), x, l2. split; [reflexivity|]. split; [|exact Hx].
    intros z [<-|Hz]; auto.
  - intros [= <-]. exists [], a, l. rewrite E. repeat split. intros z [].
Qed.

Lemma hd_error_map {A B : Type} (f : A -> B) (l : list A) (y : B) :
  hd_error (map f l) = Some y -> exists x, hd_error l = Some x /\ y = f x.
Proof. destruct l as [|a l]; cbn; [discriminate|]. intros [= <-]. eauto. Qed.

(** [c*?] tries the shorter repetitions first. *)
Lemma lazy_star_order (c : cls) : forall t l1 x l2,
  lazy_star c t = (l1 ++ x :: l2)%list ->
  forall p q, word x = p ++ q -> q <> "" ->
              In (Way p [] (q ++ rest x)) l1.
Proof.
  assert (Hfirst : forall t x, In x (lazy_star c t) ->
                     lazy_star c t
                     = Way "" [] (word x ++ rest x) :: tl (lazy_star c t)).
  { intros t x Hx. apply lazy_star_sound in Hx. rewrite <- Hx.
    now destruct t. }
  induction t as [|a t IH]; intros l1 x l2 E p q Hw Hq.
  - destruct l1 as [|z l1]; cbn in E.
    + injection E as <- _. cbn in Hw. destruct p; [|discriminate].
      now contradiction Hq.
    + injection E as _ E. now destruct l1.
  - assert (Hx : In x (lazy_star c (String a t)))
      by (rewrite E; apply in_elt).
    destruct l1 as [|z l1].
    + rewrite (Hfirst _ _ Hx) in E. cbn [app] in E. injection E as Ex _.
      rewrite <- Ex in Hw. cbn in Hw.
      destruct p; [|discriminate]. now contradiction Hq.
    + rewrite (Hfirst _ _ Hx) in E. change ((z :: l1) ++ x :: l2)%list
        with (z :: (l1 ++ x :: l2))%list in E. injection E as <- E.
      destruct p as [|b p]; [left; cbn in Hw; now rewrite <- Hw|].
      right. cbn [lazy_star tl] in E.
      destruct (accepts c a); [|now destruct l1].
      apply map_eq_app in E. destruct E as (k1 & k2 & Ek & <- & E2).
      apply map_eq_cons in E2. destruct E2 as (x' & k2' & -> & <- & _).
      cbn in Hw. injection Hw as <- Hw. cbn [rest].
      apply in_map_iff. exists (Way p [] (q ++ rest x')).
      split; [reflexivity|]. eapply IH; eauto.
Qed.

(** The first way of matching the pattern: its groups, and a second
    group that holds no acknowledgment. *)
Lemma ways_ptn_first (s : string) (w : way) :
  hd_error (ways ptn s) = Some w ->
  exists g1 g2 g3,
    w = Way (g1 ++ g2 ++ g3) [(1%nat, g1); (2%nat, g2); (3%nat, g3)] (rest w)
    /\ s = g1 ++ g2 ++ g3 ++ rest w
    /\ In g1 wake_forms /\ no_newline g2 = true /\ In g3 ack_forms
    /\ has_ack g2 = false.
Proof.
  intros H.
  assert (Hin : In w (ways ptn s))
    by (destruct (ways ptn s); [discriminate | injection H as ->; now left]).
  destruct (ways_ptn_shape _ _ Hin) as (g1 & g2 & g3 & Ew & Es & F1 & N2 & F3).
  exists g1, g2, g3. repeat split; auto.
  rewrite ptn_groups in H. cbn [ways] in H.
  apply hd_error_flat_map in H. destruct H as (j1 & w1 & j2 & Ej & _ & H).
  assert (H1 : In w1 (ways (Grp 1 wake_re) s))
    by (cbn [ways]; rewrite Ej; apply in_elt).
  apply ways_grp_full in H1. destruct H1 as (v1 & H1 & ->).
  apply ways_wake in H1. destruct H1 as [_ C1].
  apply hd_error_map in H. destruct H as (w23 & H & Ew').
  apply hd_error_flat_map in H. destruct H as (l1 & x & l2 & E & Hn & H).
  apply hd_error_map in H. destruct H as (w3 & H3 & ->).
  apply map_eq_app in E. destruct E as (k1 & k2 & Ek & <- & E2).
  apply map_eq_cons in E2. destruct E2 as (x' & k2' & -> & <- & _).
  cbn [word caps rest] in *.
  assert (Hx' : In x' (lazy_star Dot (rest v1))) by (rewrite Ek; apply in_elt).
  destruct (lazy_star_caps _ _ _ Hx') as [Cx' _].
  (* the second group is the text [c*?] took *)
  assert (Hg2 : g2 = word x').
  { rewrite Ew in Ew'. rewrite C1, Cx' in Ew'. cbn [app] in Ew'.
    now injection Ew'. }
  assert (Hmin : forall tok, In tok ack_forms -> Str.contains tok g2 = false).
  { intros tok Htok. destruct (Str.contains tok g2) eqn:Ec; [|reflexivity].
    apply contains_split in Ec. destruct Ec as (p & q & Ec).
    rewrite Hg2 in Ec.
    assert (Hq : tok ++ q <> "")
      by (destruct Htok as [<-|[<-|[]]]; discriminate).
    pose proof (lazy_star_order Dot _ _ _ _ Ek p (tok ++ q) Ec Hq) as Hp.
    specialize (Hn _ (in_map _ _ _ Hp)). cbn [rest word caps] in Hn.
    apply map_eq_nil in Hn. apply map_eq_nil in Hn.
    pose proof (ways_ack_complete tok (q ++ rest x') Htok) as Hc.
    rewrite <- append_assoc, Hn in Hc. contradiction Hc. }
  unfold has_ack. rewrite (Hmin "thanks"), (Hmin "thank you"); cbn; auto.
Qed.

End PatternFacts.

(* ===================================================================== *)
(** ** [strip], [re.sub] and [get_cmd] *)
(* ===================================================================== *)

Section CleaningFacts.

Lemma sub_set_app (cs : list ascii) (repl a b : string) :
  Str.sub_set cs repl (a ++ b)
  = Str.sub_set cs repl a ++ Str.sub_set cs repl b.
Proof.
  induction a as [|x a IH]; cbn; [reflexivity|].
  destruct (Str.mem x cs); rewrite IH; [|reflexivity].
  now rewrite append_assoc.
Qed.

Lemma sub_set_clean (s : string) :
  no_punctuation s = true -> Str.sub_set punctuation " " s = s.
Proof.
  unfold no_punctuation. induction s as [|x s IH]; cbn [all_chars Str.sub_set];
    [reflexivity|].
  intros H. apply andb_true_iff in H. destruct H as [Hx H].
  apply negb_true_iff in Hx. now rewrite Hx, IH.
Qed.

Lemma sub_set_no_punctuation (s : string) :
  no_punctuation (Str.sub_set punctuation " " s) = true.
Proof.
  unfold no_punctuation. induction s as [|x s IH]; [reflexivity|].
  cbn [Str.sub_set]. destruct (Str.mem x punctuation) eqn:E.
  - exact IH.
  - cbn [all_chars]. now rewrite E, IH.
Qed.

Lemma sub_set_no_newline (s : string) :
  no_newline s = true -> no_newline (Str.sub_set punctuation " " s) = true.
Proof.
  unfold no_newline. induction s as [|x s IH]; [reflexivity|].
  cbn [all_chars Str.sub_set]. intros H.
  apply andb_true_iff in H. destruct H as [Hx H].
  destruct (Str.mem x punctuation).
  - now apply IH.
  - cbn [all_chars]. now rewrite Hx, IH.
Qed.

(** [lstrip] removes a prefix of white space, [rstrip] a suffix. *)
Lemma lstrip_suffix (s : string) :
  exists a, s = a ++ Str.lstrip s /\ all_chars Str.isspace a = true.
Proof.
  induction s as [|x s (a & IH & Ha)]; [now exists ""|].
  cbn [Str.lstrip]. destruct (Str.isspace x) eqn:E; [|now exists ""].
  exists (String x a). cbn. now rewrite E, <- IH.
Qed.

Lemma rstrip_prefix (s : string) :
  exists b, s = Str.rstrip s ++ b /\ all_chars Str.isspace b = true.
Proof.
  induction s as [|x s (b & IH & Hb)]; [now exists ""|].
  cbn [Str.rstrip]. destruct (Str.rstrip s) as [|y r] eqn:Er.
  - destruct (Str.isspace x) eqn:E.
    + exists (String x b). cbn in IH |- *. subst s. now rewrite E.
    + exists b. cbn in IH |- *. now subst s.
  - exists b. cbn [append] in IH |- *. now rewrite <- IH.
Qed.

(** [strip] keeps a substring: what holds of every character of [s] holds
    of every character of [s.strip()], and what occurs in [s.strip()]
    occurs in [s]. *)
Lemma strip_substring (s : string) :
  exists a b, s = a ++ Str.strip s ++ b.
Proof.
  destruct (lstrip_suffix s) as (a & Ha & _).
  destruct (rstrip_prefix (Str.lstrip s)) as (b & Hb & _).
  exists a, b. unfold Str.strip. now rewrite <- Hb.
Qed.

Lemma strip_all_chars (p : ascii -> bool) (s : string) :
  all_chars p s = true -> all_chars p (Str.strip s) = true.
Proof.
  destruct (strip_substring s) as (a & b & E). intros H. rewrite E in H.
  rewrite !all_chars_app in H.
  apply andb_true_iff in H. destruct H as [_ H].
  now apply andb_true_iff in H.
Qed.

Lemma strip_contains (t s : string) :
  Str.contains t (Str.strip s) = true -> Str.contains t s = true.
Proof.
  destruct (strip_substring s) as (a & b & E). intros H.
  rewrite E. now apply contains_app_r, contains_app_l.
Qed.

Lemma rstrip_idem (s : string) : Str.rstrip (Str.rstrip s) = Str.rstrip s.
Proof.
  induction s as [|x s IH]; [reflexivity|].
  cbn [Str.rstrip]. destruct (Str.rstrip s) as [|y r] eqn:Er.
  - destruct (Str.isspace x) eqn:E; [reflexivity|]. cbn. now rewrite E.
  - cbn [Str.rstrip] in *. now rewrite IH.
Qed.

Lemma rstrip_head (x : ascii) (s : string) :
  Str.isspace x = false -> exists r, Str.rstrip (String x s) = String x r.
Proof.
  intros E. cbn [Str.rstrip]. destruct (Str.rstrip s); rewrite ?E; eauto.
Qed.

(** Stripping twice is stripping once. *)
Lemma strip_idem (s : string) : Str.strip (Str.strip s) = Str.strip s.
Proof.
  unfold Str.strip.
  assert (H : forall t, Str.lstrip (Str.lstrip t) = Str.lstrip t
                        /\ Str.lstrip (Str.rstrip (Str.lstrip t))
                           = Str.rstrip (Str.lstrip t)).
  { induction t as [|x t [IH1 IH2]]; [now split|].
    cbn [Str.lstrip]. destruct (Str.isspace x) eqn:E; [now split|].
    destruct (rstrip_head x t E) as [r ->]. cbn. now rewrite E. }
  destruct (H s) as [_ ->]. apply rstrip_idem.
Qed.

Lemma lstrip_keep (a b : string) (c : ascii) :
  Str.isspace c = false ->
  exists a', Str.lstrip (a ++ String c b) = a' ++ String c b.
Proof.
  intros E. induction a as [|x a [a' IH]]; cbn.
  - rewrite E. now exists "".
  - destruct (Str.isspace x); [eauto | now exists (String x a)].
Qed.

Lemma rstrip_app (a u : string) :
  Str.rstrip u <> "" -> Str.rstrip (a ++ u) = a ++ Str.rstrip u.
Proof.
  intros H. induction a as [|x a IH]; [reflexivity|].
  cbn [append Str.rstrip]. rewrite IH.
  destruct (a ++ Str.rstrip u) eqn:E; [|reflexivity].
  destruct a; [now contradiction H | discriminate].
Qed.

Lemma rstrip_keep (a b : string) (c : ascii) :
  Str.isspace c = false ->
  exists b', Str.rstrip (a ++ String c b) = a ++ String c b'.
Proof.
  intros E. destruct (rstrip_head c b E) as [r Hr].
  exists r. rewrite rstrip_app; rewrite Hr; [reflexivity | discriminate].
Qed.

(** Replacing the punctuation and stripping keeps a trigger phrase
    findable. *)
Lemma cleaning_keeps_trigger (pre g1 g2 g3 post : string) :
  In g1 wake_forms -> no_newline g2 = true -> In g3 ack_forms ->
  exists pre' g2' post',
    Str.strip (Str.sub_set punctuation " " (pre ++ g1 ++ g2 ++ g3 ++ post))
    = pre' ++ g1 ++ g2' ++ g3 ++ post'
    /\ no_newline g2' = true.
Proof.
  intros H1 H2 H3. rewrite !sub_set_app.
  set (P := Str.sub_set punctuation " " pre).
  set (Q := Str.sub_set punctuation " " post).
  set (G := Str.sub_set punctuation " " g2).
  assert (E1 : Str.sub_set punctuation " " g1 = g1)
    by (destruct H1 as [<-|[<-|[<-|[<-|[]]]]]; reflexivity).
  assert (E3 : Str.sub_set punctuation " " g3 = g3)
    by (destruct H3 as [<-|[<-|[]]]; reflexivity).
  rewrite E1, E3.
  assert (Hhead : exists c t, g1 = String c t /\ Str.isspace c = false)
    by (destruct H1 as [<-|[<-|[<-|[<-|[]]]]]; eexists _, _; split;
        reflexivity).
  assert (Hlast : exists t c, g3 = t ++ String c "" /\ Str.isspace c = false).
  { destruct H3 as [<-|[<-|[]]];
      [exists "thank", "s"%char | exists "thank yo", "u"%char]; now split. }
  destruct Hhead as (c1 & t1 & Eg1 & Hc1).
  destruct Hlast as (t3 & c3 & Eg3 & Hc3).
  clear H1 H3 E1 E3. subst g1 g3. unfold Str.strip.
  destruct (lstrip_keep P (t1 ++ G ++ (t3 ++ String c3 "") ++ Q) c1 Hc1)
    as [P' HP].
  cbn [append]. rewrite HP.
  assert (E : P' ++ String c1 (t1 ++ G ++ (t3 ++ String c3 "") ++ Q)
              = (P' ++ String c1 (t1 ++ G ++ t3)) ++ String c3 Q).
  { repeat (rewrite !append_assoc; cbn [append]). reflexivity. }
  rewrite E.
  destruct (rstrip_keep (P' ++ String c1 (t1 ++ G ++ t3)) Q c3 Hc3) as [Q' HQ].
  exists P', G, Q'. split; [|now apply sub_set_no_newline].
  rewrite HQ. repeat (rewrite !append_assoc; cbn [append]). reflexivity.
Qed.

End CleaningFacts.

(* ===================================================================== *)
(** ** What [ptn.search] finds and what [get_cmd] returns *)
(* ===================================================================== *)

(** The pattern is found in exactly the texts that hold "ana" or "anna",
    then any text without line break, then "thanks" or "thank you": the
    optional [h] and the surroundings of the wake token play no part. *)
Theorem X1_trigger_language (s : string) :
  (exists m, search ptn s = Some m) <->
  (exists pre g1 g2 g3 post,
      s = pre ++ g1 ++ g2 ++ g3 ++ post
      /\ (g1 = "ana" \/ g1 = "anna")
      /\ no_newline g2 = true
      /\ (g3 = "thanks" \/ g3 = "thank you")).
Proof.
  split.
  - intros [m H]. apply search_from_first in H.
    destruct H as (pre & w & Es & Hw & _ & _).
    apply ways_ptn_first in Hw.
    destruct Hw as (g1 & g2 & g3 & _ & Ew & F1 & N2 & F3 & _).
    assert (H3 : g3 = "thanks" \/ g3 = "thank you")
      by (destruct F3 as [<-|[<-|[]]]; auto).
    rewrite Ew in Es.
    destruct F1 as [<-|[<-|[<-|[<-|[]]]]].
    + exists (pre ++ "h"), "anna", g2, g3, (rest w).
      rewrite append_assoc. repeat split; auto.
    + exists (pre ++ "h"), "ana", g2, g3, (rest w).
      rewrite append_assoc. repeat split; auto.
    + exists pre, "anna", g2, g3, (rest w). repeat split; auto.
    + exists pre, "ana", g2, g3, (rest w). repeat split; auto.
  - intros (pre & g1 & g2 & g3 & post & -> & H1 & H2 & H3).
    apply search_from_complete.
    assert (F1 : In g1 wake_forms)
      by (destruct H1 as [-> | ->]; cbn; auto).
    assert (F3 : In g3 ack_forms)
      by (destruct H3 as [-> | ->]; cbn; auto).
    pose proof (ways_ptn_complete g1 g2 g3 post F1 H2 F3) as H.
    intros E. rewrite E in H. contradiction H.
Qed.

(** X1 on a text with no wake word of its own. *)
Lemma X1_witness :
  exists m, search ptn "a banana split" = None
            /\ search ptn "a banana split, thank you!" = Some m.
Proof.
  destruct (proj2 (X1_trigger_language "a banana split, thank you!")) as [m H].
  - exists "a b", "ana", "na split, ", "thank you", "!". repeat split; auto.
  - exists m. split; [reflexivity | exact H].
Defined.

(** The match [search] returns: it starts at the leftmost position from
    which a wake form ("hanna", "hana", "anna", "ana"), a text without
    line break and an acknowledgment follow each other; groups 1, 2 and 3
    are these three texts; and group 2, the shortest possible, holds no
    acknowledgment. *)
Theorem X2_match_structure (s : string) (m : match_) :
  search ptn s = Some m ->
  exists pre g1 g2 g3 post,
    s = pre ++ g1 ++ g2 ++ g3 ++ post
    /\ m = Match (String.length pre) (g1 ++ g2 ++ g3)
                 [(1%nat, g1); (2%nat, g2); (3%nat, g3)]
    /\ In g1 wake_forms /\ no_newline g2 = true /\ In g3 ack_forms
    /\ has_ack g2 = false
    /\ forall p q h1 h2 h3 post',
         pre = p ++ q -> q <> "" ->
         In h1 wake_forms -> no_newline h2 = true -> In h3 ack_forms ->
         q ++ g1 ++ g2 ++ g3 ++ post <> h1 ++ h2 ++ h3 ++ post'.
Proof.
  intros H. apply search_from_first in H.
  destruct H as (pre & w & Es & Hw & -> & Hleft).
  apply ways_ptn_first in Hw.
  destruct Hw as (g1 & g2 & g3 & Ew' & Ew & F1 & N2 & F3 & A2).
  exists pre, g1, g2, g3, (rest w). rewrite Ew in Es, Hleft.
  rewrite Ew'. cbn [word caps rest plus]. repeat split; auto.
  intros p q h1 h2 h3 post' Ep Hq G1 G2 G3 E.
  pose proof (ways_ptn_complete h1 h2 h3 post' G1 G2 G3) as Hc.
  rewrite <- E, (Hleft p q Ep Hq) in Hc. contradiction Hc.
Qed.

(** X2 on a text with two wake tokens and two acknowledgments. *)
Lemma X2_witness :
  exists pre g1 g2 g3 post,
    "oh hana, stop. thanks hanna go thank you"
    = pre ++ g1 ++ g2 ++ g3 ++ post
    /\ Match 3 "hana, stop. thanks"
             [(1%nat, "hana"); (2%nat, ", stop. "); (3%nat, "thanks")]
       = Match (String.length pre) (g1 ++ g2 ++ g3)
               [(1%nat, g1); (2%nat, g2); (3%nat, g3)]
    /\ has_ack g2 = false.
Proof.
  destruct (X2_match_structure "oh hana, stop. thanks hanna go thank you"
              (Match 3 "hana, stop. thanks"
                     [(1%nat, "hana"); (2%nat, ", stop. "); (3%nat, "thanks")])
              eq_refl)
    as (pre & g1 & g2 & g3 & post & E & Em & _ & _ & _ & A & _).
  exists pre, g1, g2, g3, post. auto.
Defined.

Lemma get_cmd_found (s : string) (m : match_) :
  search ptn s = Some m -> exists c, get_cmd s ptn = Some c.
Proof.
  intros H. apply search_from_first in H.
  destruct H as (pre & w & Es & Hw & _ & _).
  apply ways_ptn_first in Hw.
  destruct Hw as (g1 & g2 & g3 & _ & Ew & F1 & N2 & F3 & _).
  rewrite Ew in Es.
  destruct (cleaning_keeps_trigger pre g1 g2 g3 (rest w) F1 N2 F3)
    as (pre' & g2' & post' & Ec & N2').
  unfold get_cmd. rewrite <- Es in Ec. rewrite Ec.
  destruct (search_from_complete ptn pre' (g1 ++ g2' ++ g3 ++ post') 0%nat)
    as [m' Hm'].
  { intros E. pose proof (ways_ptn_complete g1 g2' g3 post' F1 N2' F3) as Hc.
    rewrite E in Hc. contradiction Hc. }
  unfold search. rewrite Hm'. apply search_from_first in Hm'.
  destruct Hm' as (p' & w' & _ & Hw' & Em' & _).
  apply ways_ptn_first in Hw'.
  destruct Hw' as (h1 & h2 & h3 & Ew' & _).
  rewrite Em', Ew'. cbn. eauto.
Qed.

Lemma get_cmd_clean (s c : string) :
  get_cmd s ptn = Some c ->
  no_punctuation c = true
  /\ no_newline c = true
  /\ Str.strip c = c
  /\ has_ack c = false.
Proof.
  unfold get_cmd.
  set (cmd := Str.strip (Str.sub_set punctuation " " s)).
  destruct (search ptn cmd) as [m|] eqn:H; [|discriminate].
  apply search_from_first in H.
  destruct H as (pre & w & Es & Hw & -> & _).
  apply ways_ptn_first in Hw.
  destruct Hw as (g1 & g2 & g3 & Ew' & Ew & F1 & N2 & F3 & A2).
  assert (Hc : caps w = [(1%nat, g1); (2%nat, g2); (3%nat, g3)])
    by (rewrite Ew'; reflexivity).
  cbn [captures]. rewrite Hc. cbn. intros [= <-]. rewrite Ew in Es.
  assert (Hp : no_punctuation cmd = true)
    by (apply strip_all_chars, sub_set_no_punctuation).
  rewrite Es in Hp. unfold no_punctuation in Hp.
  rewrite !all_chars_app in Hp.
  apply andb_true_iff in Hp. destruct Hp as [_ Hp].
  apply andb_true_iff in Hp. destruct Hp as [_ Hp].
  apply andb_true_iff in Hp. destruct Hp as [Hp _].
  split; [now apply strip_all_chars|].
  split; [now apply strip_all_chars|].
  split; [apply strip_idem|].
  unfold has_ack in *. apply orb_false_iff in A2. destruct A2 as [A B].
  apply orb_false_iff. split.
  - destruct (Str.contains "thanks" (Str.strip g2)) eqn:E; [|reflexivity].
    apply strip_contains in E. congruence.
  - destruct (Str.contains "thank you" (Str.strip g2)) eqn:E; [|reflexivity].
    apply strip_contains in E. congruence.
Qed.

(** What the loop prints when a feed finds the pattern: a command that
    [get_cmd] did extract, clean of punctuation, line breaks, outer white
    space and acknowledgments. *)
Lemma feed_command (acc text : string) (cmd : option string) :
  In (PrintUserSays cmd) (fst (feed acc text)) ->
  exists c, cmd = Some c
            /\ no_punctuation c = true /\ no_newline c = true
            /\ Str.strip c = c /\ has_ack c = false.
Proof.
  intros H.
  destruct (feed_cases acc text) as [[E _] | (cmd' & m & E & Hm)];
    rewrite E in H; cbn in H; [contradiction|].
  destruct H as [[= <-]|[]].
  unfold feed in E. rewrite Hm in E. injection E as <-.
  destruct (get_cmd_found _ _ Hm) as [c Hc]. rewrite Hc.
  exists c. split; [reflexivity | now apply get_cmd_clean in Hc].
Qed.

(** Whenever the pattern is found in a text, [get_cmd] finds it again in
    the text cleaned of its punctuation and returns a command; so the loop
    never prints a missing command. *)
Theorem X3_command_always_extracted :
  (forall s m, search ptn s = Some m -> exists c, get_cmd s ptn = Some c) /\
  (forall acc text cmd,
      In (PrintUserSays cmd) (fst (feed acc text)) -> cmd <> None).
Proof.
  split; [exact get_cmd_found|].
  intros acc text cmd H. apply feed_command in H.
  destruct H as (c & -> & _). discriminate.
Qed.

(** X3 on a text whose punctuation touches both tokens. *)
Lemma X3_witness :
  exists c, get_cmd "...hanna: lights, on; thanks!!" ptn = Some c.
Proof.
  exact (proj1 X3_command_always_extracted
               "...hanna: lights, on; thanks!!"
               (Match 3 "hanna: lights, on; thanks"
                      [(1%nat, "hanna"); (2%nat, ": lights, on; ");
                       (3%nat, "thanks")])
               eq_refl).
Defined.

(** A command returned by [get_cmd] holds none of the punctuation
    [. , ; : ! ?], no line break, no white space at either end, and
    neither "thanks" nor "thank you". *)
Theorem X4_command_is_clean (s c : string) :
  get_cmd s ptn = Some c ->
  no_punctuation c = true
  /\ no_newline c = true
  /\ Str.strip c = c
  /\ has_ack c = false.
Proof. apply get_cmd_clean. Qed.

(** X4 on a command between punctuation. *)
Lemma X4_witness :
  no_punctuation "lights  on" = true
  /\ no_newline "lights  on" = true
  /\ Str.strip "lights  on" = "lights  on"
  /\ has_ack "lights  on" = false.
Proof.
  exact (X4_command_is_clean "hey hanna: lights, on!  thanks." "lights  on"
           eq_refl).
Defined.

(* ===================================================================== *)
(** ** Invariants of the loop *)
(* ===================================================================== *)

Section LoopInvariants.

Variable phrase_timeout : Z.
Variable audio_model : option pipe.

Lemma join_empty_cons (x : string) (l : list string) :
  Str.join "" (x :: l) = x ++ Str.join "" l.
Proof. destruct l; cbn; [now rewrite append_nil_r | reflexivity]. Qed.

Lemma join_empty_app (a b : list string) :
  Str.join "" (a ++ b) = Str.join "" a ++ Str.join "" b.
Proof.
  induction a as [|x a IH]; [reflexivity|].
  change ((x :: a) ++ b)%list with (x :: (a ++ b))%list.
  now rewrite !join_empty_cons, IH, append_assoc.
Qed.

(** What a commit that succeeds does to the lines. *)
Lemma commit_ok (lines lines' : list string) (text : string) (b : bool) :
  commit lines text b = Ok lines' ->
  Str.join "" lines' = Str.join "" lines ++ text
  /\ List.length lines' = (List.length lines + if b then 1 else 0)%nat
  /\ exists more, more <> []
                  /\ lines' = (removelast lines ++ more)%list
                  /\ (b = true -> more = [last lines ""; text]
                                  \/ (lines = [] /\ more = [text])).
Proof.
  assert (Hl : lines = [] \/ exists pre l, lines = (pre ++ [l])%list).
  { destruct lines as [|l0 ls]; [now left | right].
    exists (removelast (l0 :: ls)), (last (l0 :: ls) "").
    now apply app_removelast_last. }
  unfold commit. destruct b.
  - intros [= <-]. rewrite join_empty_app, length_app.
    split; [reflexivity | split; [reflexivity|]].
    destruct Hl as [-> | (pre & l & ->)].
    + exists [text]. split; [discriminate | split; [reflexivity | auto]].
    + exists [l; text]. rewrite removelast_last, last_last, <- app_assoc.
      split; [discriminate | split; [reflexivity | auto]].
  - destruct Hl as [-> | (pre & l & ->)]; [discriminate|].
    rewrite extend_last_snoc. intros [= <-].
    rewrite !join_empty_app, !length_app, removelast_last.
    cbn [Str.join List.length].
    split; [now rewrite append_assoc | split; [lia|]].
    exists [l ++ text]. split; [discriminate | split; [reflexivity|]].
    discriminate.
Qed.

(** A commit fails only on a transcript without lines. *)
Lemma commit_raise (lines : list string) (text : string) (b : bool) (e : exn) :
  commit lines text b = Raise e ->
  lines = [] /\ b = false
  /\ e = Exception "IndexError" "list index out of range".
Proof.
  unfold commit. destruct b; [discriminate|].
  destruct lines as [|l0 ls]; [now intros [= <-]|].
  rewrite (app_removelast_last "" (l := l0 :: ls)) by discriminate.
  rewrite extend_last_snoc. discriminate.
Qed.

(** An iteration after which the loop goes on either idled or committed
    the text of one recogniser call. *)
Lemma iteration_next st ev tr st1 :
  iteration phrase_timeout audio_model st ev = (tr, Next st1) ->
  (tr = [Sleep] /\ st1 = st) \/
  (exists now audio raw b lines out acc model,
      audio_model = Some model /\ model audio = Ok raw
      /\ tr = ([Segment now b; Transcribe audio] ++ out)%list
      /\ commit (transcription st) (Str.strip raw) b = Ok lines
      /\ feed (transcript st) (Str.strip raw) = (out, acc)
      /\ st1 = State (Some now) lines acc).
Proof.
  destruct ev as [now queue|]; [|discriminate]. unfold iteration, loop_body.
  destruct queue as [|c q]; [intros [= <- <-]; now left|].
  cbn [segment transcription transcript phrase_time].
  destruct (Audio.decode _) as [audio|]; [|discriminate].
  destruct audio_model as [model|]; [|discriminate].
  destruct (model audio) as [raw|[|? ?]] eqn:Em; try discriminate.
  destruct (commit _ _ _) as [lines|[|? ?]] eqn:Ec; try discriminate.
  destruct (feed _ _) as [out acc] eqn:Ef. intros [= <- <-].
  right. exists now, audio, raw. do 5 eexists.
  repeat split; try reflexivity; eassumption.
Qed.

(** An iteration that a [KeyboardInterrupt] ends leaves the transcript
    and the accumulator as they were. *)
Lemma iteration_break st ev tr st1 :
  iteration phrase_timeout audio_model st ev = (tr, Break st1) ->
  transcription st1 = transcription st
  /\ transcript st1 = transcript st
  /\ recognised audio_model tr = []
  /\ commands tr = []
  /\ written tr = [].
Proof.
  destruct ev as [now queue|]; [|intros [= <- <-]; now repeat split].
  unfold iteration, loop_body.
  destruct queue as [|c q]; [discriminate|].
  cbn [segment transcription transcript phrase_time].
  destruct (Audio.decode _) as [audio|]; [|discriminate].
  destruct audio_model as [model|]; [|discriminate].
  destruct (model audio) as [raw|[|? ?]] eqn:Em; try discriminate.
  - destruct (commit _ _ _) as [lines|e] eqn:Ec.
    + destruct (feed _ _) as [out acc]. discriminate.
    + apply commit_raise in Ec. destruct Ec as (_ & _ & ->). discriminate.
  - intros [= <- <-]. cbn. rewrite Em. now repeat split.
Qed.

Lemma feed_quiet (acc text : string) :
  recognised audio_model (fst (feed acc text)) = [].
Proof.
  destruct (feed_cases acc text) as [[-> _] | (cmd & m & -> & _)];
    reflexivity.
Qed.

Lemma recognised_app tr1 tr2 :
  recognised audio_model (tr1 ++ tr2)
  = (recognised audio_model tr1 ++ recognised audio_model tr2)%list.
Proof. apply flat_map_app. Qed.

Lemma commands_app tr1 tr2 :
  commands (tr1 ++ tr2) = (commands tr1 ++ commands tr2)%list.
Proof. apply flat_map_app. Qed.

Lemma boundaries_signalled_app tr1 tr2 :
  boundaries_signalled (tr1 ++ tr2)
  = (boundaries_signalled tr1 + boundaries_signalled tr2)%nat.
Proof.
  unfold boundaries_signalled.
  now rewrite segments_app, filter_app, length_app.
Qed.

Lemma spaced_app (a b : list string) :
  spaced (a ++ b) = spaced a ++ spaced b.
Proof.
  induction a as [|x a IH]; cbn; [reflexivity|].
  now rewrite IH, !append_assoc.
Qed.

(** What one committing iteration leaves in the trace. *)
Lemma committed_trace now b audio raw model acc text out acc' :
  audio_model = Some model -> model audio = Ok raw ->
  feed acc text = (out, acc') ->
  recognised audio_model ([Segment now b; Transcribe audio] ++ out)
  = [Str.strip raw]
  /\ boundaries_signalled ([Segment now b; Transcribe audio] ++ out)
     = (if b then 1 else 0)%nat
  /\ commands ([Segment now b; Transcribe audio] ++ out) = commands out.
Proof.
  intros Ea Em Ef.
  pose proof (feed_quiet acc text) as Hq.
  pose proof (feed_silent acc text) as (Hs & _).
  rewrite Ef in Hq, Hs. cbn [fst] in Hq, Hs.
  rewrite recognised_app, boundaries_signalled_app, commands_app, Hq.
  unfold boundaries_signalled at 2. rewrite Hs.
  cbn. rewrite Ea, Em. cbn. destruct b; auto.
Qed.

(** Induction along the runs that leave a state: those the loop still
    runs after, and those a [KeyboardInterrupt] ended. *)
Lemma run_ind (P : state -> list action -> state -> Prop) :
  (forall st, P st [] st) ->
  (forall st ev tr st1 tr' st',
      iteration phrase_timeout audio_model st ev = (tr, Next st1) ->
      P st1 tr' st' -> P st (tr ++ tr')%list st') ->
  (forall st ev tr st1,
      iteration phrase_timeout audio_model st ev = (tr, Break st1) ->
      P st tr st1) ->
  forall events st tr r st',
    engine_loop phrase_timeout audio_model st events = (tr, r) ->
    r = Looping st' \/ r = Broken st' -> P st tr st'.
Proof.
  intros Hrefl Hnext Hbreak.
  induction events as [|ev more IH]; intros st tr r st'; cbn [engine_loop].
  - intros [= <- <-] [[= <-]|[=]]. apply Hrefl.
  - destruct (iteration _ _ st ev) as [tr1 [st1|st1|e]] eqn:Ei.
    + destruct (engine_loop _ _ st1 more) as [tr' r'] eqn:Er.
      intros [= <- <-] Hr. eapply Hnext; eauto.
    + intros [= <- <-] [[=]|[= <-]]. eapply Hbreak; eauto.
    + intros [= <- <-] [[=]|[=]].
Qed.

End LoopInvariants.

(** Along a run of the loop the lines before the open last line are
    never changed or removed: the final transcript is the initial one
    without its last line, followed by at least one line. *)
Theorem X5_earlier_lines_frozen (phrase_timeout : Z)
        (audio_model : option pipe) (events : list event) (st st' : state)
        (tr : list action) (r : loop_end) :
  engine_loop phrase_timeout audio_model st events = (tr, r) ->
  r = Looping st' \/ r = Broken st' ->
  transcription st <> [] ->
  exists more,
    more <> []
    /\ transcription st' = (removelast (transcription st) ++ more)%list.
Proof.
  revert events st tr r st'.
  apply (run_ind phrase_timeout audio_model
           (fun st tr st' =>
              transcription st <> [] ->
              exists more,
                more <> []
                /\ transcription st'
                   = (removelast (transcription st) ++ more)%list)).
  - intros st H. exists [last (transcription st) ""].
    split; [discriminate | now apply app_removelast_last].
  - intros st ev tr st1 tr' st' Hi IH Hne.
    apply iteration_next in Hi.
    destruct Hi as [[_ ->] | (now & audio & raw & b & lines & out & acc
                               & model & _ & _ & _ & Hc & _ & ->)];
      [now apply IH|].
    apply commit_ok in Hc. destruct Hc as (_ & _ & m1 & Hm1 & -> & _).
    cbn [transcription] in IH. destruct IH as (m2 & Hm2 & ->).
    { destruct (removelast (transcription st)); [|discriminate].
      now destruct m1. }
    rewrite removelast_app by exact Hm1.
    exists (removelast m1 ++ m2)%list. rewrite <- app_assoc. split; [|auto].
    destruct (removelast m1); [exact Hm2 | discriminate].
  - intros st ev tr st1 Hi Hne. apply iteration_break in Hi.
    destruct Hi as (-> & _). exists [last (transcription st) ""].
    split; [discriminate | now apply app_removelast_last].
Qed.

(** X5 on two drains, the second after a pause: the first line is
    complete, the second is open. *)
Lemma X5_witness :
  exists more, more <> [] /\ ["ab"; "b"] = (removelast ["a"] ++ more)%list.
Proof.
  apply (X5_earlier_lines_frozen four_seconds (Some (fun a => Ok "b"))
           [Poll 0 [chunk1]; Poll 9000000 [chunk2]]
           (State None ["a"] "")
           (State (Some 9000000) ["ab"; "b"] "b b ")
           [Segment 0 false; Transcribe [Audio.normalize 1];
            Segment 9000000 true; Transcribe [Audio.normalize 2]]
           (Looping (State (Some 9000000) ["ab"; "b"] "b b ")));
    [reflexivity | left; reflexivity | discriminate].
Defined.

(** While the loop runs, the transcript has one line more for each
    boundary signalled: a boundary opens a line, a drain without
    boundary adds none. *)
Theorem X6_one_line_per_boundary (phrase_timeout : Z)
        (audio_model : option pipe) (events : list event) :
  forall (st st' : state) (tr : list action),
    engine_loop phrase_timeout audio_model st events = (tr, Looping st') ->
    List.length (transcription st')
    = (List.length (transcription st) + boundaries_signalled tr)%nat.
Proof.
  induction events as [|ev more IH]; intros st st' tr; cbn [engine_loop].
  - intros [= <- <-]. cbn. lia.
  - destruct (iteration _ _ st ev) as [tr1 [st1|st1|e]] eqn:Ei;
      try discriminate.
    destruct (engine_loop _ _ st1 more) as [tr' r'] eqn:Er.
    intros [= <- ->]. apply IH in Er. rewrite Er.
    rewrite boundaries_signalled_app. apply iteration_next in Ei.
    destruct Ei as [[-> ->] | (now & audio & raw & b & lines & out & acc
                               & model & Ea & Em & -> & Hc & Hf & ->)];
      [cbn; lia|].
    apply commit_ok in Hc. destruct Hc as (_ & Hlen & _).
    destruct (committed_trace audio_model now b audio raw model
                _ _ _ _ Ea Em Hf) as (_ & -> & _).
    cbn [transcription]. lia.
Qed.

(** X6 on drains at 0 s, 1 s and 9 s with a timeout of 4 s. *)
Lemma X6_witness : 3%nat = (2 + 1)%nat.
Proof.
  exact (X6_one_line_per_boundary four_seconds (Some (fun a => Ok "b"))
           [Poll 0 [chunk1]; Poll 1000000 [chunk1]; Poll 9000000 [chunk2]]
           (State None ["x"; "a"] "")
           (State (Some 9000000) ["x"; "abb"; "b"] "b b b ")
           [Segment 0 false; Transcribe [Audio.normalize 1];
            Segment 1000000 false; Transcribe [Audio.normalize 1];
            Segment 9000000 true; Transcribe [Audio.normalize 2]]
           eq_refl).
Defined.

(** The lines of the transcript, put end to end, are the initial lines
    followed by the stripped texts of the recogniser calls that returned,
    in order: no text is lost, repeated or reordered, and nothing is put
    between two texts of one line. *)
Theorem X7_transcript_holds_every_text (phrase_timeout : Z)
        (audio_model : option pipe) (events : list event) (st st' : state)
        (tr : list action) (r : loop_end) :
  engine_loop phrase_timeout audio_model st events = (tr, r) ->
  r = Looping st' \/ r = Broken st' ->
  Str.join "" (transcription st')
  = Str.join "" (transcription st) ++ Str.join "" (recognised audio_model tr).
Proof.
  revert events st tr r st'.
  apply (run_ind phrase_timeout audio_model
           (fun st tr st' =>
              Str.join "" (transcription st')
              = Str.join "" (transcription st)
                ++ Str.join "" (recognised audio_model tr))).
  - intros st. cbn. now rewrite append_nil_r.
  - intros st ev tr st1 tr' st' Hi IH. rewrite IH.
    rewrite recognised_app, join_empty_app, <- append_assoc. f_equal.
    apply iteration_next in Hi.
    destruct Hi as [[-> ->] | (now & audio & raw & b & lines & out & acc
                               & model & Ea & Em & -> & Hc & Hf & ->)];
      [cbn; now rewrite append_nil_r|].
    apply commit_ok in Hc. destruct Hc as (Hj & _).
    destruct (committed_trace audio_model now b audio raw model
                _ _ _ _ Ea Em Hf) as (-> & _).
    exact Hj.
  - intros st ev tr st1 Hi. apply iteration_break in Hi.
    destruct Hi as (-> & _ & -> & _). cbn. now rewrite append_nil_r.
Qed.

(** X7 on a recogniser that answers " b " to every call. *)
Lemma X7_witness : "xabbb" = "xa" ++ Str.join "" ["b"; "b"; "b"].
Proof.
  exact (X7_transcript_holds_every_text four_seconds
           (Some (fun a => Ok " b "))
           [Poll 0 [chunk1]; Poll 1000000 [chunk1]; Poll 9000000 [chunk2]]
           (State None ["x"; "a"] "")
           (State (Some 9000000) ["x"; "abb"; "b"] "b b b ")
           [Segment 0 false; Transcribe [Audio.normalize 1];
            Segment 1000000 false; Transcribe [Audio.normalize 1];
            Segment 9000000 true; Transcribe [Audio.normalize 2]]
           (Looping (State (Some 9000000) ["x"; "abb"; "b"] "b b b "))
           eq_refl (or_introl eq_refl)).
Defined.

(** The accumulator never keeps a complete trigger phrase: if the pattern
    is not found in it before a run, it is not found in it after. *)
Theorem X8_accumulator_holds_no_trigger (phrase_timeout : Z)
        (audio_model : option pipe) (events : list event) (st st' : state)
        (tr : list action) (r : loop_end) :
  engine_loop phrase_timeout audio_model st events = (tr, r) ->
  r = Looping st' \/ r = Broken st' ->
  search ptn (Str.lower (transcript st)) = None ->
  search ptn (Str.lower (transcript st')) = None.
Proof.
  revert events st tr r st'.
  apply (run_ind phrase_timeout audio_model
           (fun st tr st' =>
              search ptn (Str.lower (transcript st)) = None ->
              search ptn (Str.lower (transcript st')) = None)).
  - auto.
  - intros st ev tr st1 tr' st' Hi IH H. apply IH.
    apply iteration_next in Hi.
    destruct Hi as [[_ ->] | (now & audio & raw & b & lines & out & acc
                              & model & _ & _ & _ & _ & Hf & ->)];
      [exact H|].
    cbn [transcript].
    destruct (feed_cases (transcript st) (Str.strip raw))
      as [[E Hs] | (cmd & m & E & _)]; rewrite E in Hf;
      injection Hf as _ <-; [exact Hs | reflexivity].
  - intros st ev tr st1 Hi H. apply iteration_break in Hi.
    destruct Hi as (_ & -> & _). exact H.
Qed.

(** X8 on a phrase completed over two drains. *)
Lemma X8_witness : search ptn (Str.lower "") = None.
Proof.
  exact (X8_accumulator_holds_no_trigger four_seconds
           (Some (fun a => match a with
                           | [_] => Ok "Hanna stop"
                           | _ => Ok "thanks"
                           end))
           [Poll 0 [chunk1]; Poll 1000000 [chunk1; chunk2]]
           init
           (State (Some 1000000) ["Hanna stopthanks"] "")
           [Segment 0 false; Transcribe [Audio.normalize 1];
            Segment 1000000 false;
            Transcribe [Audio.normalize 1; Audio.normalize 2];
            PrintUserSays (Some "stop")]
           (Looping (State (Some 1000000) ["Hanna stopthanks"] ""))
           eq_refl (or_introl eq_refl) eq_refl).
Defined.

(** As long as a run prints no command, the accumulator is the initial
    one followed by each recognised text and a space. *)
Theorem X9_accumulator_without_command (phrase_timeout : Z)
        (audio_model : option pipe) (events : list event) (st st' : state)
        (tr : list action) (r : loop_end) :
  engine_loop phrase_timeout audio_model st events = (tr, r) ->
  r = Looping st' \/ r = Broken st' ->
  commands tr = [] ->
  transcript st' = transcript st ++ spaced (recognised audio_model tr).
Proof.
  revert events st tr r st'.
  apply (run_ind phrase_timeout audio_model
           (fun st tr st' =>
              commands tr = [] ->
              transcript st'
              = transcript st ++ spaced (recognised audio_model tr))).
  - intros st _. cbn. now rewrite append_nil_r.
  - intros st ev tr st1 tr' st' Hi IH H.
    rewrite commands_app in H. apply app_eq_nil in H. destruct H as [H1 H2].
    rewrite (IH H2), recognised_app, spaced_app, <- append_assoc. f_equal.
    apply iteration_next in Hi.
    destruct Hi as [[-> ->] | (now & audio & raw & b & lines & out & acc
                               & model & Ea & Em & -> & _ & Hf & ->)];
      [cbn; now rewrite append_nil_r|].
    destruct (committed_trace audio_model now b audio raw model
                _ _ _ _ Ea Em Hf) as (-> & _ & Hc).
    rewrite Hc in H1. cbn [transcript spaced].
    destruct (feed_cases (transcript st) (Str.strip raw))
      as [[E _] | (cmd & m & E & _)]; rewrite E in Hf;
      injection Hf as <- <-; [now rewrite append_nil_r | discriminate H1].
  - intros st ev tr st1 Hi _. apply iteration_break in Hi.
    destruct Hi as (_ & -> & -> & _). cbn. now rewrite append_nil_r.
Qed.

(** X9 on two drains without acknowledgment. *)
Lemma X9_witness :
  "so hanna stop hanna stop " = "so " ++ spaced ["hanna stop"; "hanna stop"].
Proof.
  exact (X9_accumulator_without_command four_seconds
           (Some (fun a => Ok " hanna stop"))
           [Poll 0 [chunk1]; Poll 1000000 [chunk2]]
           (State None [""] "so ")
           (State (Some 1000000) ["hanna stophanna stop"]
                  "so hanna stop hanna stop ")
           [Segment 0 false; Transcribe [Audio.normalize 1];
            Segment 1000000 false; Transcribe [Audio.normalize 2]]
           (Looping (State (Some 1000000) ["hanna stophanna stop"]
                           "so hanna stop hanna stop "))
           eq_refl (or_introl eq_refl) eq_refl).
Defined.



(** Polls that all find the queue empty change nothing: the loop sleeps
    once for each and keeps its state. *)
Theorem X18_idle_polls (phrase_timeout : Z) (audio_model : option pipe)
        (st : state) (times : list Z) :
  engine_loop phrase_timeout audio_model st
              (map (fun now => Poll now []) times)
  = (repeat Sleep (List.length times), Looping st).
Proof.
  induction times as [|now more IH]; [reflexivity|].
  cbn [map engine_loop iteration loop_body]. now rewrite IH.
Qed.

Lemma loop_body_commands phrase_timeout audio_model st now queue tr st' r :
  loop_body phrase_timeout audio_model st now queue = (tr, st', r) ->
  commands tr = []
  \/ exists acc text cmd audio,
       In (PrintUserSays cmd) (fst (feed acc text))
       /\ commands tr = [cmd] /\ transcribed tr = [audio].
Proof.
  unfold loop_body. destruct queue as [|c q]; [intros [= <- _ _]; now left|].
  cbn [segment transcription transcript phrase_time].
  destruct (Audio.decode _) as [audio|]; [|intros [= <- _ _]; now left].
  destruct audio_model as [model|]; [|intros [= <- _ _]; now left].
  destruct (model audio) as [raw|e]; [|intros [= <- _ _]; now left].
  destruct (commit _ _ _) as [lines|e]; [|intros [= <- _ _]; now left].
  destruct (feed_cases (transcript st) (Str.strip raw))
    as [[E _] | (cmd & m & E & _)]; rewrite E; intros [= <- _ _];
    [now left | right].
  exists (transcript st), (Str.strip raw), cmd, audio. rewrite E.
  repeat split. now left.
Qed.

(** Every command a run prints is a command [get_cmd] extracted (never a
    missing one), without punctuation, line break, outer white space or
    acknowledgment; and a run prints at most one command for each call of
    the recogniser. *)
Theorem X19_printed_commands (phrase_timeout : Z) (audio_model : option pipe)
        (events : list event) :
  forall (st : state) (tr : list action) (r : loop_end),
    engine_loop phrase_timeout audio_model st events = (tr, r) ->
    Forall (fun cmd => exists c, cmd = Some c
                                 /\ no_punctuation c = true
                                 /\ no_newline c = true
                                 /\ Str.strip c = c
                                 /\ has_ack c = false) (commands tr)
    /\ (List.length (commands tr) <= List.length (transcribed tr))%nat.
Proof.
  assert (Hstep : forall st ev tr1 ctl,
             iteration phrase_timeout audio_model st ev = (tr1, ctl) ->
             Forall (fun cmd => exists c, cmd = Some c
                                          /\ no_punctuation c = true
                                          /\ no_newline c = true
                                          /\ Str.strip c = c
                                          /\ has_ack c = false) (commands tr1)
             /\ (List.length (commands tr1)
                 <= List.length (transcribed tr1))%nat).
  { intros st [now queue|] tr1 ctl; cbn [iteration];
      [|intros [= <- _]; split; [constructor | cbn; lia]].
    destruct (loop_body _ _ st now queue) as [[tr0 st0] r0] eqn:E.
    assert (tr1 = tr0 -> Forall (fun cmd => exists c, cmd = Some c
                                          /\ no_punctuation c = true
                                          /\ no_newline c = true
                                          /\ Str.strip c = c
                                          /\ has_ack c = false) (commands tr1)
             /\ (List.length (commands tr1)
                 <= List.length (transcribed tr1))%nat).
    { intros ->. apply loop_body_commands in E.
      destruct E as [-> | (acc & text & cmd & audio & Hin & -> & ->)].
      - split; [constructor | cbn; lia].
      - split; [|cbn; lia]. constructor; [|constructor].
        now apply feed_command in Hin. }
    destruct r0 as [[|? ?]|]; intros [= <- _]; auto. }
  induction events as [|ev more IH]; intros st tr r; cbn [engine_loop].
  - intros [= <- _]. split; [constructor | cbn; lia].
  - destruct (iteration _ _ st ev) as [tr1 ctl] eqn:Ei.
    apply Hstep in Ei. destruct Ei as [F1 L1].
    destruct ctl as [st1|st1|e]; try (intros [= <- _]; now split).
    destruct (engine_loop _ _ st1 more) as [tr' r'] eqn:Er.
    intros [= <- _]. apply IH in Er. destruct Er as [F2 L2].
    rewrite commands_app, transcribed_app, !length_app.
    split; [now apply Forall_app | lia].
Qed.

(** X19 on a session of two commands. *)
Lemma X19_witness :
  Forall (fun cmd => exists c, cmd = Some c
                               /\ no_punctuation c = true
                               /\ no_newline c = true
                               /\ Str.strip c = c
                               /\ has_ack c = false)
         [Some "lights  on"; Some ""; Some "lights  on"]
  /\ (3 <= 3)%nat.
Proof.
  exact (X19_printed_commands four_seconds
           (Some (fun a => match a with
                           | [_] => Ok "Hanna: lights, on. Thanks!"
                           | _ => Ok "hanna thanks"
                           end))
           [Poll 0 [chunk1]; Poll 1000000 [chunk1; chunk2];
            Poll 2000000 [chunk1]]
           init
           [Segment 0 false; Transcribe [Audio.normalize 1];
            PrintUserSays (Some "lights  on");
            Segment 1000000 false;
            Transcribe [Audio.normalize 1; Audio.normalize 2];
            PrintUserSays (Some "");
            Segment 2000000 false; Transcribe [Audio.normalize 1];
            PrintUserSays (Some "lights  on")]
           (Looping (State (Some 2000000)
                           ["Hanna: lights, on. Thanks!hanna thanksHanna: lights, on. Thanks!"]
                           ""))
           eq_refl).
Defined.

(* ===================================================================== *)
(** ** More on the audio decode *)
(* ===================================================================== *)

Section DecodeFacts.

(** The samples [np.frombuffer] reads: one [int16] for every two bytes. *)
Lemma frombuffer_some (n : nat) : forall audio_data samples,
  (List.length audio_data <= n)%nat ->
  Audio.frombuffer audio_data = Some samples ->
  List.length audio_data = (2 * List.length samples)%nat
  /\ Forall (fun x => -32768 <= x <= 32767) samples.
Proof.
  induction n as [|n IH]; intros [|lo [|hi more]] samples Hn; cbn in Hn;
    try lia; cbn [Audio.frombuffer]; try discriminate;
    try (intros [= <-]; now split).
  destruct (Audio.frombuffer more) as [rest|] eqn:E; [|discriminate].
  intros [= <-]. destruct (IH more rest) as [Hl Hr]; [lia | exact E |].
  split; [cbn; lia|]. constructor; [apply int16_range | exact Hr].
Qed.

Lemma frombuffer_app (a b : list byte) (x : list Z) :
  Audio.frombuffer a = Some x ->
  Audio.frombuffer (a ++ b) = option_map (app x) (Audio.frombuffer b).
Proof.
  remember (List.length a) as n eqn:Hn.
  assert (Hle : (List.length a <= n)%nat) by lia. clear Hn.
  revert a x Hle.
  induction n as [|n IH]; intros [|lo [|hi more]] x Hn; cbn in Hn; try lia;
    cbn [Audio.frombuffer app]; try discriminate;
    try (intros [= <-]; now destruct (Audio.frombuffer b)).
  destruct (Audio.frombuffer more) as [rest|] eqn:E; [|discriminate].
  intros [= <-]. rewrite (IH more rest); [|lia|exact E].
  now destruct (Audio.frombuffer b).
Qed.

Lemma frombuffer_parity (n : nat) : forall audio_data,
  (List.length audio_data <= n)%nat ->
  Audio.frombuffer audio_data = None
  <-> Nat.odd (List.length audio_data) = true.
Proof.
  induction n as [|n IH]; intros [|lo [|hi more]] Hn; cbn in Hn; try lia;
    try (cbn; split; discriminate); try (cbn; split; reflexivity).
  cbn [Audio.frombuffer List.length]. rewrite Nat.odd_succ_succ.
  rewrite <- (IH more) by lia.
  destruct (Audio.frombuffer more); cbn; split; auto; discriminate.
Qed.

Lemma normalize_value (sample : Z) :
  -32768 <= sample <= 32767 ->
  exists q, Audio.to_Q (Audio.normalize sample) = Some q
            /\ (q == sample # 32768)%Q.
Proof.
  intros H. apply exact_at_int16 in H. unfold exact_at in H.
  apply andb_true_iff in H. destruct H as [_ Hq].
  destruct (Audio.to_Q (Audio.normalize sample)) as [q|]; [|discriminate].
  exists q. split; [reflexivity | now apply Qeq_bool_eq].
Qed.

Lemma normalize_inj (s1 s2 : Z) :
  -32768 <= s1 <= 32767 -> -32768 <= s2 <= 32767 ->
  Audio.normalize s1 = Audio.normalize s2 -> s1 = s2.
Proof.
  intros H1 H2 E.
  destruct (normalize_value s1 H1) as (q1 & E1 & Q1).
  destruct (normalize_value s2 H2) as (q2 & E2 & Q2).
  rewrite E, E2 in E1. injection E1 as <-.
  rewrite Q2 in Q1. unfold Qeq in Q1. cbn in Q1. lia.
Qed.

Lemma int16_inj (lo hi lo' hi' : byte) :
  Audio.int16 lo hi = Audio.int16 lo' hi' -> lo = lo' /\ hi = hi'.
Proof.
  intros E.
  destruct (int16_range lo hi) as [_ H], (int16_range lo' hi') as [_ H'].
  rewrite E, H' in H.
  pose proof (Byte.to_N_bounded lo). pose proof (Byte.to_N_bounded hi).
  pose proof (Byte.to_N_bounded lo'). pose proof (Byte.to_N_bounded hi').
  assert (El : Byte.to_N lo = Byte.to_N lo') by lia.
  assert (Eh : Byte.to_N hi = Byte.to_N hi') by lia.
  pose proof (Byte.of_to_N lo) as Ll. pose proof (Byte.of_to_N lo') as Ll'.
  pose proof (Byte.of_to_N hi) as Lh. pose proof (Byte.of_to_N hi') as Lh'.
  split; congruence.
Qed.

End DecodeFacts.

(** Every decoded value lies in the interval from -1 (included) to 1
    (excluded), and there is one value for every two bytes. *)
Theorem X11_decoded_audio_in_range (audio_data : list byte)
        (audio_np : list Audio.float32) :
  Audio.decode audio_data = Some audio_np ->
  List.length audio_data = (2 * List.length audio_np)%nat
  /\ Forall (fun x => exists q, Audio.to_Q x = Some q
                                /\ (-1 <= q)%Q /\ (q < 1)%Q) audio_np.
Proof.
  unfold Audio.decode.
  destruct (Audio.frombuffer audio_data) as [samples|] eqn:E; [|discriminate].
  intros [= <-].
  destruct (frombuffer_some _ _ _ (le_n _) E) as [Hl Hr].
  rewrite length_map. split; [exact Hl|].
  apply Forall_map. eapply Forall_impl; [|exact Hr].
  intros s Hs. cbn beta in Hs.
  destruct (normalize_value s Hs) as (q & Eq & Hq).
  exists q. split; [exact Eq|]. rewrite Hq.
  unfold Qle, Qlt. cbn. lia.
Qed.

(** X11 on the extreme samples -32768 and 32767. *)
Lemma X11_witness :
  List.length [x00; x80; xff; x7f] = (2 * 2)%nat
  /\ Forall (fun x => exists q, Audio.to_Q x = Some q
                                /\ (-1 <= q)%Q /\ (q < 1)%Q)
            [Audio.normalize (-32768); Audio.normalize 32767].
Proof.
  exact (X11_decoded_audio_in_range [x00; x80; xff; x7f]
           [Audio.normalize (-32768); Audio.normalize 32767] eq_refl).
Defined.

(** Decoding the chunks of a drain together gives the decoded chunks one
    after the other, whenever each chunk decodes on its own. *)
Theorem X12_decode_of_chunks (queue : list (list byte))
        (parts : list (list Audio.float32)) :
  Forall2 (fun chunk part => Audio.decode chunk = Some part) queue parts ->
  Audio.decode (List.concat queue) = Some (List.concat parts).
Proof.
  induction 1 as [|chunk part queue parts Hc _ IH]; [reflexivity|].
  cbn [List.concat]. unfold Audio.decode in *.
  destruct (Audio.frombuffer chunk) as [x|] eqn:Ex; [|discriminate].
  rewrite (frombuffer_app _ _ _ Ex).
  destruct (Audio.frombuffer (List.concat queue)) as [y|]; [|discriminate].
  cbn in *. injection Hc as <-. injection IH as <-.
  now rewrite map_app.
Qed.

(** X12 on a drain of two chunks. *)
Lemma X12_witness :
  Audio.decode (List.concat [chunk1; chunk2])
  = Some (List.concat [[Audio.normalize 1]; [Audio.normalize 2]]).
Proof.
  apply X12_decode_of_chunks. repeat constructor.
Defined.

(** The decode fails exactly on a buffer of an odd number of bytes; a
    drain of such a size ends the loop with a [ValueError], after the
    boundary decision and before any call of the recogniser. *)
Theorem X13_odd_buffer (phrase_timeout : Z) (audio_model : option pipe) :
  (forall audio_data,
      Audio.decode audio_data = None
      <-> Nat.odd (List.length audio_data) = true) /\
  (forall st now chunk queue,
      Nat.odd (List.length (List.concat (chunk :: queue))) = true ->
      iteration phrase_timeout audio_model st (Poll now (chunk :: queue))
      = ([Segment now (fst (segment phrase_timeout st now))],
         Propagate (Exception "ValueError"
                      "buffer size must be a multiple of element size"))).
Proof.
  assert (H : forall audio_data,
             Audio.decode audio_data = None
             <-> Nat.odd (List.length audio_data) = true).
  { intros a. rewrite <- (frombuffer_parity _ a (le_n _)).
    unfold Audio.decode. destruct (Audio.frombuffer a); cbn; split; auto;
      discriminate. }
  split; [exact H|].
  intros st now chunk queue Ho. apply H in Ho.
  unfold iteration, loop_body. rewrite Ho. reflexivity.
Qed.

(** X13 on a drain of a two-byte and a one-byte chunk. *)
Lemma X13_witness :
  iteration four_seconds None init (Poll 7 [chunk1; [x05]])
  = ([Segment 7 false],
     Propagate (Exception "ValueError"
                  "buffer size must be a multiple of element size")).
Proof.
  exact (proj2 (X13_odd_buffer four_seconds None) init 7 chunk1 [[x05]]
               eq_refl).
Defined.

Lemma decode_inj_bounded (n : nat) : forall (a b : list byte)
        (audio_np : list Audio.float32),
  (List.length a <= n)%nat ->
  Audio.decode a = Some audio_np -> Audio.decode b = Some audio_np -> a = b.
Proof.
  unfold Audio.decode.
  induction n as [|n IH]; intros a b audio Hn Ha Hb.
  - destruct a; [|cbn in Hn; lia]. cbn in Ha. injection Ha as <-.
    destruct b as [|lo [|hi b]]; cbn in Hb; try discriminate; [reflexivity|].
    destruct (Audio.frombuffer b); discriminate.
  - destruct a as [|lo [|hi a]]; cbn [Audio.frombuffer] in Ha;
      try discriminate.
    + cbn in Ha. injection Ha as <-.
      destruct b as [|lo [|hi b]]; cbn in Hb; try discriminate;
        [reflexivity|].
      destruct (Audio.frombuffer b); discriminate.
    + destruct (Audio.frombuffer a) as [x|] eqn:Ex; [|discriminate].
      cbn in Ha. injection Ha as <-.
      destruct b as [|lo' [|hi' b]]; cbn [Audio.frombuffer] in Hb;
        try discriminate.
      destruct (Audio.frombuffer b) as [y|] eqn:Ey; [|discriminate].
      cbn in Hb. injection Hb as Hh Ht.
      apply normalize_inj in Hh; try apply int16_range.
      apply int16_inj in Hh. destruct Hh as [-> ->].
      f_equal. f_equal.
      apply (IH a b (map Audio.normalize x)).
      * cbn in Hn. lia.
      * now rewrite Ex.
      * rewrite Ey. cbn. congruence.
Qed.

(** The decode loses nothing: buffers that decode to the same audio are
    the same buffer. *)
Theorem X14_decode_injective (a b : list byte)
        (audio_np : list Audio.float32) :
  Audio.decode a = Some audio_np -> Audio.decode b = Some audio_np -> a = b.
Proof. apply (decode_inj_bounded (List.length a)). apply le_n. Qed.

(** X14 on a buffer of two samples. *)
Lemma X14_witness : (chunk1 ++ chunk2)%list = [x01; x00; x02; x00].
Proof.
  exact (X14_decode_injective (chunk1 ++ chunk2)%list [x01; x00; x02; x00]
           [Audio.normalize 1; Audio.normalize 2] eq_refl eq_refl).
Defined.

(* ===================================================================== *)
(** ** More on the setup and the end of [main] *)
(* ===================================================================== *)

Lemma session_end_written (st : state) :
  written (session_end st)
  = [Str.join Str.newline (Str.iter (transcript st))].
Proof.
  unfold session_end, save_transcripts.
  change (Print "transcription:" :: map Print (transcription st)
            ++ [FileWrite (Str.join Str.newline (Str.iter (transcript st)))])%list
    with (map Print ("transcription:" :: transcription st)
            ++ [FileWrite (Str.join Str.newline (Str.iter (transcript st)))])%list.
  now rewrite written_app, written_prints.
Qed.

(** [load_model] prints nothing but its error message. *)
Lemma load_model_trace (build_pipeline : string -> bool -> result pipe)
      (name : string) (use_cpu : bool) (a : action) :
  In a (fst (load_model build_pipeline name use_cpu)) ->
  exists line, a = Print ("Error loading model " ++ line).
Proof.
  unfold load_model.
  destruct (build_pipeline name use_cpu) as [p|[|c m]]; cbn;
    [contradiction | contradiction |].
  intros [<-|[]]. now exists (name ++ ": " ++ m).
Qed.

(** On Linux, when the microphone asked for is neither empty nor "list"
    and no microphone name contains it, [main] ends with an exception
    before it announces readiness: the loop is not entered, whatever
    events wait, and nothing is transcribed or written. *)
Theorem X15_microphone_not_found
        (build_pipeline : string -> bool -> result pipe)
        (model : string) (phrase_timeout : Z) (default_microphone : string)
        (microphone_names : list string) (events : list event) :
  default_microphone <> "" -> default_microphone <> "list" ->
  (forall name, In name microphone_names ->
                Str.contains default_microphone name = false) ->
  exists tr e,
    main build_pipeline true model phrase_timeout default_microphone
         microphone_names events = (tr, Uncaught e)
    /\ ~ In (Print "[READY]") tr
    /\ segments tr = [] /\ transcribed tr = [] /\ written tr = [].
Proof.
  intros H1 H2 Hn. unfold main, select_source.
  apply String.eqb_neq in H1, H2. rewrite H1, H2. cbn [orb app].
  assert (Hb : existsb (Str.contains default_microphone) microphone_names
               = false).
  { induction microphone_names as [|x l IH]; [reflexivity|].
    cbn. rewrite (Hn x) by now left. apply IH.
    intros name Hin. apply Hn. now right. }
  rewrite Hb. cbn [negb].
  destruct (MODEL_CHOICES model) as [name|].
  2:{ exists [], (Exception "KeyError" model). now repeat split. }
  pose proof (load_model_trace build_pipeline name true) as Ht.
  assert (Hp : forall tr1,
             (forall a, In a tr1 ->
                        exists line, a = Print ("Error loading model " ++ line)) ->
             ~ In (Print "[READY]") tr1 /\ segments tr1 = []
             /\ transcribed tr1 = [] /\ written tr1 = []).
  { induction tr1 as [|a tr1 IH]; intros Ha; [now repeat split|].
    destruct (Ha a (or_introl eq_refl)) as [line ->].
    destruct IH as (I1 & I2 & I3 & I4); [intros; apply Ha; now right|].
    repeat split; auto. intros [[=]|Hin]. now apply I1. }
  destruct (load_model build_pipeline name true) as [tr1 [am|e]];
    cbn [fst] in Ht; eexists _, _; (split; [reflexivity | now apply Hp]).
Qed.

(** X15 with the microphones "hdmi" and "usb" and the default name
    "pulse". *)
Lemma X15_witness :
  exists tr e,
    main (fun _ _ => Ok (fun _ => Ok "x")) true "small" four_seconds "pulse"
         ["hdmi"; "usb"] [Poll 0 [chunk1]] = (tr, Uncaught e)
    /\ ~ In (Print "[READY]") tr
    /\ segments tr = [] /\ transcribed tr = [] /\ written tr = [].
Proof.
  apply X15_microphone_not_found; try discriminate.
  intros name [<-|[<-|[]]]; reflexivity.
Defined.

(** On Linux, when the microphone asked for is "list" or empty, [main]
    prints a header and one line for each microphone and returns: the
    model is not loaded and the loop is not entered, whatever the loader
    and the events. *)
Theorem X16_microphone_listing
        (build_pipeline : string -> bool -> result pipe)
        (model : string) (phrase_timeout : Z) (default_microphone : string)
        (microphone_names : list string) (events : list event) :
  default_microphone = "" \/ default_microphone = "list" ->
  exists lines,
    main build_pipeline true model phrase_timeout default_microphone
         microphone_names events
    = (map Print ("Available microphone devices are: " :: lines), Returned)
    /\ List.length lines = List.length microphone_names
    /\ forall i name, nth_error microphone_names i = Some name ->
         nth_error lines i
         = Some ("Microphone with name " ++ dquote ++ name ++ dquote
                   ++ " found").
Proof.
  intros H. unfold main, select_source.
  assert (E : String.eqb default_microphone "" 
              || String.eqb default_microphone "list" = true)
    by (destruct H as [-> | ->]; reflexivity).
  rewrite E.
  set (line := fun name => "Microphone with name " ++ dquote ++ name
                             ++ dquote ++ " found").
  exists (map line microphone_names).
  split; [cbn [map]; now rewrite map_map | split; [apply length_map|]].
  intros i name Hi. exact (map_nth_error line i microphone_names Hi).
Qed.

(** X16 with two microphones. *)
Lemma X16_witness :
  exists lines,
    main (fun _ _ => Raise KeyboardInterrupt) true "small" four_seconds
         "list" ["hdmi"; "usb"] [Poll 0 [chunk1]]
    = (map Print ("Available microphone devices are: " :: lines), Returned)
    /\ List.length lines = 2%nat
    /\ forall i name, nth_error ["hdmi"; "usb"] i = Some name ->
         nth_error lines i
         = Some ("Microphone with name " ++ dquote ++ name ++ dquote
                   ++ " found").
Proof.
  apply X16_microphone_listing. now right.
Defined.

(** A run of [main] writes the transcript file at most once, and only
    when [main] returns after the loop was interrupted, as the last action
    of the session end; a run still in the loop, or left by an exception,
    has written nothing. *)
Theorem X17_file_written_at_most_once
        (build_pipeline : string -> bool -> result pipe) (linux : bool)
        (model : string) (phrase_timeout : Z) (default_microphone : string)
        (microphone_names : list string) (events : list event)
        (tr : list action) (ex : exit) :
  main build_pipeline linux model phrase_timeout default_microphone
       microphone_names events = (tr, ex) ->
  written tr = []
  \/ (ex = Returned
      /\ exists audio_model tr0 st before,
           engine_loop phrase_timeout audio_model init events = (tr0, Broken st)
           /\ tr = (before ++ session_end st)%list
           /\ written tr = [Str.join Str.newline (Str.iter (transcript st))]).
Proof.
  unfold main.
  pose proof (select_source_written linux default_microphone microphone_names)
    as Hs.
  destruct (select_source _ _ _) as [tr0 [bound|]]; cbn [fst] in Hs;
    [|intros [= <- _]; now left].
  destruct (MODEL_CHOICES model) as [name|]; [|intros [= <- _]; now left].
  pose proof (load_model_written build_pipeline name true) as Hm.
  destruct (load_model _ name true) as [tr1 [am|e1]]; cbn [fst] in Hm.
  2:{ intros [= <- _]. left. now rewrite written_app, Hs, Hm. }
  destruct bound; cbn [negb].
  2:{ intros [= <- _]. left. now rewrite written_app, Hs, Hm. }
  destruct (engine_loop _ am init events) as [tr2 [st|st|e2]] eqn:Er;
    intros [= <- <-]; pose proof (run_written _ _ _ _ _ _ Er) as Hw.
  - left. now rewrite !written_app, Hs, Hm, Hw.
  - right. split; [reflexivity|].
    exists am, tr2, st, ((tr0 ++ tr1 ++ [Print "[READY]"]) ++ tr2)%list.
    split; [exact Er | split; [now rewrite <- !app_assoc|]].
    now rewrite !written_app, Hs, Hm, Hw, session_end_written.
  - left. now rewrite !written_app, Hs, Hm, Hw.
Qed.

(** X17 on a session of one drain ended by [KeyboardInterrupt]. *)
Lemma X17_witness :
  let run := main (fun _ _ => Ok (fun _ => Ok "hanna")) false "large"
                  four_seconds "" [] [Poll 0 [chunk1]; CtrlC] in
  written (fst run) = []
  \/ (snd run = Returned
      /\ exists audio_model tr0 st before,
           engine_loop four_seconds audio_model init [Poll 0 [chunk1]; CtrlC]
           = (tr0, Broken st)
           /\ fst run = (before ++ session_end st)%list
           /\ written (fst run)
              = [Str.join Str.newline (Str.iter (transcript st))]).
Proof.
  intros run.
  apply (X17_file_written_at_most_once
           (fun _ _ => Ok (fun _ => Ok "hanna")) false "large"
           four_seconds "" [] [Poll 0 [chunk1]; CtrlC]).
  reflexivity.
Defined.
